(** * acquirelease: the acquire / release transaction runner

  A shallow embedding of [src/index.ts] (the builder and the runner
  returned by [Transaction]) together with the properties of the
  runner: shape of the results mapping, order of the acquire and
  release calls, the [Exit] descriptor handed to a release, and the
  error that the runner throws.

  Modelling choices.
  - A JavaScript value is an element of an arbitrary type [value].  The
    runner itself touches three things of that world, gathered in a
    record [js]: [undefined], the object [Object.prototype], and whether
    a value is a primitive, [null] or an object.  Thrown values are
    values too (the source catches [unknown]).
  - [const results: Record<string, any> = {}] is a plain object: own
    properties, a finite map [gmap string value], and a prototype.
    [results[k] = v] makes or updates an own property, except for the
    key [__proto__], which a plain object inherits as an accessor: the
    assignment then replaces the prototype (by an object or [null]) or
    does nothing (for a primitive).  An object put there by a step is
    taken to be an ordinary one: it inherits from [Object.prototype],
    has no accessor, no read-only property and no property [__proto__]
    under a tag of the pipeline, and does not inherit from the mapping.
  - The mapping handed to an acquire function is read by it, not
    written (its TypeScript type is the argument type [Prev]).
  - User code (acquire and release functions) may have effects of its
    own: it is a transformer of an external world [W] that also yields
    how the awaited promise settles.  [await Promise.resolve (f x)]
    either yields a value or throws, whether [f] is synchronous or not.
    Every call settles: a promise that stays pending leaves the runner
    pending at that call, and nothing is said of such runs.
  - The runner records a ghost trace of the calls it makes and of how
    each one settles; the order claims are statements about that trace.
  - User code that holds a builder may call [add] while the runner
    runs.  The last part of the model, [SharedStep] and
    [invoke_shared], lets a step do so; the runner then reads the array
    as it is at each turn of its loop. *)

From stdpp Require Import gmap strings list.

(** ** Data model *)

(** [typeof v] as far as assigning to [__proto__] looks at it. *)
Inductive value_kind : Type :=
| KPrimitive
| KNull
| KObject.

Section Model.
Context {value W : Type}.

(** How an awaited call settles. *)
Inductive settled (A : Type) : Type :=
| Resolved (a : A)
| Rejected (e : value).

(** [type Exit = { isError: boolean; error?: unknown }] *)
Record Exit : Type := mkExit {
  isError : bool;
  error : option value
}.

(** What the mapping inherits from: [Object.prototype] as every object
    literal does, or what an assignment to [__proto__] has put there. *)
Inductive prototype : Type :=
| ObjectPrototype
| NullPrototype
| UserPrototype (p : value).

(** The object [results]: its own properties and its prototype. *)
Record results_object : Type := mkResults {
  own : gmap string value;
  prototype_of : prototype
}.

(** [type AcquireRelease<K, Prev, Current>]; [release] is optional. *)
Record AcquireRelease : Type := mkStep {
  tag : string;
  acquire : results_object → W → W * settled value;
  release : option (value → Exit → W → W * settled unit)
}.

(** Ghost trace: the calls made by one invocation of the runner. *)
Inductive event : Type :=
| AcquireCall (i : nat) (prev : results_object)
| AcquireDone (i : nat) (r : settled value)
| ReleaseCall (i : nat) (resource : value) (exit : Exit)
| ReleaseDone (i : nat) (r : settled unit).

(** What the promise returned by the runner rejects with: a value
    re-thrown as it is, or a new [AggregateError (errors, message)]. *)
Inductive thrown : Type :=
| Raw (e : value)
| AggregateError (errors : list value) (message : string).

Inductive outcome : Type :=
| Returned (results : results_object)
| Threw (t : thrown).

(** The values of the language that the runner itself meets. *)
Record js : Type := mkJs {
  undefined : value;
  object_prototype : value;
  kind_of : value → value_kind
}.
End Model.

Arguments settled : clear implicits.
Arguments Exit : clear implicits.
Arguments prototype : clear implicits.
Arguments results_object : clear implicits.
Arguments AcquireRelease : clear implicits.
Arguments event : clear implicits.
Arguments thrown : clear implicits.
Arguments outcome : clear implicits.
Arguments js : clear implicits.
Arguments Resolved {value A} a.
Arguments Rejected {value A} e.
Arguments mkExit {value} isError error.
Arguments ObjectPrototype {value}.
Arguments NullPrototype {value}.
Arguments UserPrototype {value} p.
Arguments mkResults {value} own prototype_of.
Arguments mkStep {value W} tag acquire release.
Arguments Raw {value} e.
Arguments AggregateError {value} errors message.
Arguments Returned {value} results.
Arguments Threw {value} t.
Arguments mkJs {value} undefined object_prototype kind_of.

(** ** The runner *)

Section Runner.
Context {value W : Type}.
Variable J : js value.

#[local] Abbreviation step := (AcquireRelease value W).
#[local] Abbreviation trace := (list (event value)).

Definition rollback_message : string :=
  "Acquire failed and some releases also failed.".
Definition success_message : string :=
  "All acquires succeeded, but there were errors during final release.".

(** The one key that a plain object inherits as an accessor. *)
Definition proto_key : string := "__proto__".

(** [const results = {}] *)
Definition empty_results : results_object value :=
  mkResults ∅ ObjectPrototype.

(** [results[k] = v].  For [__proto__], when the object has no own
    property of that name and inherits the accessor (its prototype is
    not [null]), the setter runs: an object or [null] becomes the
    prototype, a primitive is dropped.  In every other case a data
    property is found or nothing is, and [v] goes to an own property. *)
Definition assign (results : results_object value) (k : string) (v : value)
    : results_object value :=
  if decide (k = proto_key) then
    match own results !! k, prototype_of results with
    | None, (ObjectPrototype | UserPrototype _) =>
        match kind_of J v with
        | KPrimitive => results
        | KNull => mkResults (own results) NullPrototype
        | KObject => mkResults (own results) (UserPrototype v)
        end
    | _, _ => mkResults (<[k := v]> (own results)) (prototype_of results)
    end
  else mkResults (<[k := v]> (own results)) (prototype_of results).

(** [results[k]].  An own property wins; [__proto__] is otherwise the
    prototype itself ([undefined] when it is [null]).  The runner reads
    only tags that it has assigned, so a tag other than [__proto__] is
    an own key by then (lemma [read_assigned]); the last case stands for
    the inherited properties that it never asks for. *)
Definition read (results : results_object value) (k : string) : value :=
  match own results !! k with
  | Some v => v
  | None =>
      if decide (k = proto_key) then
        match prototype_of results with
        | ObjectPrototype => object_prototype J
        | NullPrototype => undefined J
        | UserPrototype p => p
        end
      else undefined J
  end.

(** The two [while (i >= 0)] loops of [runTransaction] (lines 200-216
    and 236-246) have the same body up to the [Exit] literal.  The
    argument [acquired] is [tasks[i], tasks[i-1], ..., tasks[0]] for
    the value of [i] at loop entry, so that the index of its head is
    the length of its tail.  The result is the world after the loop,
    the calls made, and the array of caught release errors. *)
Fixpoint release_loop (results : results_object value) (exit : Exit value)
    (acquired : list step) (w : W) : W * trace * list value :=
  match acquired with
  | [] => (w, [], [])
  | task :: below =>
      let i := length below in
      match release task with
      | None => release_loop results exit below w
      | Some rel =>
          let resource := read results (tag task) in
          let '(w1, r) := rel resource exit w in
          let '(w2, evs, errs) := release_loop results exit below w1 in
          (w2,
           ReleaseCall i resource exit :: ReleaseDone i r :: evs,
           match r with
           | Resolved _ => errs
           | Rejected releaseErr => releaseErr :: errs
           end)
      end
  end.

(** The [for (; i < tasks.length; i++)] loop, entered at index [i]
    with [rest = tasks.slice(i)], followed by what comes after it. *)
Fixpoint acquire_loop (tasks rest : list step) (i : nat)
    (results : results_object value) (w : W) : W * trace * outcome value :=
  match rest with
  | [] =>
      (* All acquires succeeded; release in reverse order. *)
      let '(w', evs, successReleaseErrors) :=
        release_loop results (mkExit false None) (reverse (take i tasks)) w in
      (w', evs,
       match successReleaseErrors with
       | [] => Returned results
       | _ => Threw (AggregateError successReleaseErrors success_message)
       end)
  | task :: rest' =>
      let '(w1, r) := acquire task results w in
      match r with
      | Resolved v =>
          let '(w2, evs, out) :=
            acquire_loop tasks rest' (S i) (assign results (tag task) v) w1 in
          (w2, AcquireCall i results :: AcquireDone i r :: evs, out)
      | Rejected acquireError =>
          (* Acquire failed: roll back tasks[i-1] .. tasks[0]. *)
          let '(w2, evs, releaseErrors) :=
            release_loop results (mkExit true (Some acquireError))
              (reverse (take i tasks)) w1 in
          (w2, AcquireCall i results :: AcquireDone i r :: evs,
           Threw match releaseErrors with
                 | [] => Raw acquireError
                 | _ => AggregateError (acquireError :: releaseErrors)
                          rollback_message
                 end)
      end
  end.

(** [Transaction(tasks)()] : one invocation of the runner. *)
Definition runTransaction (tasks : list step) (w : W)
    : W * trace * outcome value :=
  acquire_loop tasks tasks 0 empty_results w.

(** ** Reading a trace *)

(** The error of the acquire that failed, if one did. *)
Definition acquire_failure (tr : trace) : option value :=
  head (omap (λ ev, match ev with
                    | AcquireDone _ (Rejected e) => Some e
                    | _ => None
                    end) tr).

(** The resource that the acquire of step [i] resolved with. *)
Definition acquired_resource (tr : trace) (i : nat) : option value :=
  head (omap (λ ev, match ev with
                    | AcquireDone j (Resolved v) =>
                        if decide (j = i) then Some v else None
                    | _ => None
                    end) tr).

(** The release calls, in the order they were made. *)
Definition release_calls (tr : trace) : list (nat * value * Exit value) :=
  omap (λ ev, match ev with
              | ReleaseCall i resource exit => Some (i, resource, exit)
              | _ => None
              end) tr.

(** The releases that failed, with their errors, in the order they
    were attempted. *)
Definition release_failures (tr : trace) : list (nat * value) :=
  omap (λ ev, match ev with
              | ReleaseDone i (Rejected e) => Some (i, e)
              | _ => None
              end) tr.

Definition release_errors (tr : trace) : list value :=
  (release_failures tr).*2.

(** Strictly decreasing step indices. *)
Definition decreasing (l : list nat) : Prop :=
  ∀ a b x y, l !! a = Some x → l !! b = Some y → a < b → y < x.

(** ** The two phases of a run, apart

    [acquire_loop] enters the release loop from inside the [catch] or
    after the [for].  For the proofs the acquire phase is also written
    on its own: it yields the world it leaves, its calls, the mapping,
    the resources acquired in order, and the error of a failed acquire. *)
Fixpoint forward (rest : list step) (i : nat)
    (results : results_object value) (w : W)
    : W * trace * results_object value * list value * option value :=
  match rest with
  | [] => (w, [], results, [], None)
  | task :: rest' =>
      let '(w1, r) := acquire task results w in
      match r with
      | Resolved v =>
          let '(w2, evs, res, vs, f) :=
            forward rest' (S i) (assign results (tag task) v) w1 in
          (w2, AcquireCall i results :: AcquireDone i r :: evs, res, v :: vs, f)
      | Rejected e =>
          (w1, [AcquireCall i results; AcquireDone i r], results, [], Some e)
      end
  end.

(** The [Exit] literal of the release loop entered after [failure]. *)
Definition exit_of (failure : option value) : Exit value :=
  match failure with
  | None => mkExit false None
  | Some acquireError => mkExit true (Some acquireError)
  end.

(** The [throw] / [return] that follows the release loop. *)
Definition finish (failure : option value) (results : results_object value)
    (errs : list value) : outcome value :=
  match failure, errs with
  | None, [] => Returned results
  | None, _ => Threw (AggregateError errs success_message)
  | Some acquireError, [] => Threw (Raw acquireError)
  | Some acquireError, _ =>
      Threw (AggregateError (acquireError :: errs) rollback_message)
  end.

(** [results[tag] = v] for each pair in turn, starting from [results]. *)
Definition assign_all (results : results_object value)
    (kvs : list (string * value)) : results_object value :=
  foldl (λ o kv, assign o kv.1 kv.2) results kvs.

(** The same on a finite map, where every key is an ordinary one. *)
Definition insert_all (m : gmap string value)
    (kvs : list (string * value)) : gmap string value :=
  foldl (λ m kv, <[kv.1 := kv.2]> m) m kvs.

(** The calls of an acquire phase that starts at index [i] with the
    mapping [results], given the tags, the resources acquired and the
    failure that ended it. *)
Fixpoint acquire_trace (i : nat) (results : results_object value)
    (tags : list string) (vs : list value) (failure : option value) : trace :=
  match tags, vs with
  | k :: tags', v :: vs' =>
      AcquireCall i results :: AcquireDone i (Resolved v)
        :: acquire_trace (S i) (assign results k v) tags' vs' failure
  | _, _ =>
      match failure with
      | Some e => [AcquireCall i results; AcquireDone i (Rejected e)]
      | None => []
      end
  end.

(** The calls of a release loop over steps of index below [n]: a call,
    how it settles, then the calls for smaller indices. *)
Inductive release_trace : nat → trace → Prop :=
| release_trace_nil n : release_trace n []
| release_trace_cons n i resource exit r evs :
    i < n →
    release_trace i evs →
    release_trace n (ReleaseCall i resource exit :: ReleaseDone i r :: evs).

(** ** What the claims say about a mapping *)

(** The mapping [m] has exactly one entry per step among the first [n],
    under the step's tag, holding the resource the step acquired. *)
Definition one_entry_per_step (tasks : list step) (tr : trace) (n : nat)
    (m : gmap string value) : Prop :=
  size m = n ∧
  ∀ j t, j < n → tasks !! j = Some t →
    ∃ v, acquired_resource tr j = Some v ∧ m !! tag t = Some v.

(** No step after [j] and before [n] has the tag of step [j]. *)
Definition last_with_tag (tasks : list step) (n j : nat) : Prop :=
  ∀ j' t t', tasks !! j = Some t → tasks !! j' = Some t' →
    j < j' < n → tag t' ≠ tag t.

(** The keys of [m] are the tags of the first [n] steps, and under each
    tag is the resource acquired by the last of them that carries it. *)
Definition last_entry_per_tag (tasks : list step) (tr : trace) (n : nat)
    (m : gmap string value) : Prop :=
  dom m = list_to_set (tag <$> take n tasks) ∧
  ∀ j t, j < n → tasks !! j = Some t → last_with_tag tasks n j →
    ∃ v, acquired_resource tr j = Some v ∧ m !! tag t = Some v.

(** The releases of steps [i] and [j] are called with [vj], and the
    release of step [i] is not called with [vi]. *)
Definition released_with_later (tr : trace) (i j : nat) (vi vj : value)
    : Prop :=
  (∀ c resource exit, c = i ∨ c = j →
     (c, resource, exit) ∈ release_calls tr → resource = vj) ∧
  (∀ resource exit, (i, resource, exit) ∈ release_calls tr → resource ≠ vi).

(** ** The builder *)

(** [createBuilder] closes over one [tasks] array that [add] pushes to
    and that the runner made by [build] reads: builders and runners
    hold a reference into a store of arrays. *)
Definition store : Type := list (list step).

Record Builder : Type := mkBuilder { builder_tasks : nat }.
Record Runner : Type := mkRunner { runner_tasks : nat }.

Definition createBuilder (tasks : nat) : Builder := mkBuilder tasks.

Definition Transaction (tasks : nat) : Runner := mkRunner tasks.

(** [createTransaction()] is [createBuilder([], {})]: a new array. *)
Definition createTransaction (σ : store) : store * Builder :=
  (σ ++ [[]], createBuilder (length σ)).
Definition createBracket (σ : store) : store * Builder :=
  (σ ++ [[]], createBuilder (length σ)).
Definition createScope (σ : store) : store * Builder :=
  (σ ++ [[]], createBuilder (length σ)).

(** [add]: [tasks.push({ tag, acquire, release })], then a builder on
    the same array. *)
Definition add (b : Builder) (tag : string)
    (acquire : results_object value → W → W * settled value value)
    (release : option (value → Exit value → W → W * settled value unit))
    (σ : store) : store * Builder :=
  (alter (λ tasks, tasks ++ [mkStep tag acquire release]) (builder_tasks b) σ,
   createBuilder (builder_tasks b)).

(** [build]: nothing runs, the array is not copied. *)
Definition build (b : Builder) : Runner := Transaction (builder_tasks b).

(** Calling the runner, for steps that do not reach the builder: the
    array is then the same at every [tasks.length] and [tasks[i]]. *)
Definition invoke (r : Runner) (σ : store) (w : W)
    : W * trace * outcome value :=
  runTransaction (σ !!! runner_tasks r) w.

(** A chain [b.add(..).add(..)...], one [add] per step of [steps]. *)
Fixpoint add_all (b : Builder) (steps : list step) (σ : store)
    : store * Builder :=
  match steps with
  | [] => (σ, b)
  | s :: steps' =>
      let '(σ', b') := add b (tag s) (acquire s) (release s) σ in
      add_all b' steps' σ'
  end.

(** ** More readings of a trace *)

(** The number of acquires that resolved. *)
Definition acquired_count (tr : trace) : nat :=
  length (omap (λ ev, match ev with
                      | AcquireDone _ (Resolved v) => Some v
                      | _ => None
                      end) tr).

(** The step indices of the release calls, in the order of the calls. *)
Definition released_indices (tr : trace) : list nat :=
  (release_calls tr).*1.*1.

(** [tasks[i].release] is there (the test [if (release)]). *)
Definition has_release (tasks : list step) (i : nat) : bool :=
  match tasks !! i ≫= release with
  | Some _ => true
  | None => false
  end.

(** ** Steps that reach the builder

    An acquire or a release function may hold a builder and call [add]
    on it.  Such a function also yields the pushes it has made, each
    the array pushed to and the step pushed; the runner, which closes
    over the array and not over a copy, finds them at the next test
    [i < tasks.length]. *)
Inductive SharedStep : Type := mkShared {
  shared_tag : string;
  shared_acquire :
    results_object value → W →
    W * settled value value * list (nat * SharedStep);
  shared_release :
    option (value → Exit value → W →
            W * settled value unit * list (nat * SharedStep))
}.

Definition shared_store : Type := list (list SharedStep).

(** [tasks.push(step)], for each call of [add] that a function made. *)
Definition push_all (pushes : list (nat * SharedStep)) (σ : shared_store)
    : shared_store :=
  foldl (λ σ p, alter (λ tasks, tasks ++ [p.2]) p.1 σ) σ pushes.

(** The release loops.  A push only appends, so [tasks[i]] for the
    indices below the one at loop entry is what it was then: the loop
    walks [acquired], the array up to that index and reversed. *)
Fixpoint release_shared (results : results_object value) (exit : Exit value)
    (acquired : list SharedStep) (σ : shared_store) (w : W)
    : shared_store * (W * trace * list value) :=
  match acquired with
  | [] => (σ, (w, [], []))
  | task :: below =>
      let i := length below in
      match shared_release task with
      | None => release_shared results exit below σ w
      | Some rel =>
          let resource := read results (shared_tag task) in
          let '(w1, r, pushes) := rel resource exit w in
          let '(σ2, (w2, evs, errs)) :=
            release_shared results exit below (push_all pushes σ) w1 in
          (σ2,
           (w2,
            ReleaseCall i resource exit :: ReleaseDone i r :: evs,
            match r with
            | Resolved _ => errs
            | Rejected releaseErr => releaseErr :: errs
            end))
      end
  end.

(** The [for] loop on the array [tasks] of the store, read at each
    turn.  A step may push at every turn, so the loop need not end:
    [fuel] bounds the number of turns, and [None] is a run cut short. *)
Fixpoint acquire_shared (fuel : nat) (tasks : nat) (i : nat)
    (results : results_object value) (σ : shared_store) (w : W)
    : option (shared_store * (W * trace * outcome value)) :=
  match fuel with
  | 0 => None
  | S fuel' =>
      match (σ !!! tasks) !! i with
      | None =>
          (* i = tasks.length *)
          let '(σ', (w', evs, successReleaseErrors)) :=
            release_shared results (mkExit false None)
              (reverse (take i (σ !!! tasks))) σ w in
          Some (σ',
                (w', evs,
                 match successReleaseErrors with
                 | [] => Returned results
                 | _ => Threw (AggregateError successReleaseErrors
                                 success_message)
                 end))
      | Some task =>
          let '(w1, r, pushes) := shared_acquire task results w in
          let σ1 := push_all pushes σ in
          match r with
          | Resolved v =>
              match acquire_shared fuel' tasks (S i)
                      (assign results (shared_tag task) v) σ1 w1 with
              | Some (σ2, (w2, evs, out)) =>
                  Some (σ2,
                        (w2, AcquireCall i results :: AcquireDone i r :: evs,
                         out))
              | None => None
              end
          | Rejected acquireError =>
              let '(σ2, (w2, evs, releaseErrors)) :=
                release_shared results (mkExit true (Some acquireError))
                  (reverse (take i (σ1 !!! tasks))) σ1 w1 in
              Some (σ2,
                    (w2, AcquireCall i results :: AcquireDone i r :: evs,
                     Threw match releaseErrors with
                           | [] => Raw acquireError
                           | _ => AggregateError
                                    (acquireError :: releaseErrors)
                                    rollback_message
                           end))
          end
      end
  end.

(** Calling a runner whose steps may reach the builder. *)
Definition invoke_shared (fuel : nat) (r : Runner) (σ : shared_store)
    (w : W) : option (shared_store * (W * trace * outcome value)) :=
  acquire_shared fuel (runner_tasks r) 0 empty_results σ w.

(** A step whose functions never call [add]. *)
Definition quiet (t : SharedStep) : Prop :=
  (∀ prev w, (shared_acquire t prev w).2 = []) ∧
  match shared_release t with
  | Some rel => ∀ resource exit w, (rel resource exit w).2 = []
  | None => True
  end.

(** The step without its pushes. *)
Definition plain (t : SharedStep) : step :=
  mkStep (shared_tag t)
    (λ prev w, (shared_acquire t prev w).1)
    (match shared_release t with
     | Some rel => Some (λ resource exit w, (rel resource exit w).1)
     | None => None
     end).

(** Calling [r1] leaves what a later call of [r2] does as it would
    have been without it; for [r1 = r2]: nothing is carried over from
    one call of a runner to the next. *)
Definition independent (fuel : nat) (r1 r2 : Runner) (σ : shared_store)
    (w : W) : Prop :=
  ∀ σ' run,
    invoke_shared fuel r1 σ w = Some (σ', run) →
    invoke_shared fuel r2 σ' w = invoke_shared fuel r2 σ w.

End Runner.

Arguments store : clear implicits.
Arguments SharedStep : clear implicits.
Arguments shared_store : clear implicits.
Arguments mkShared {value W} shared_tag shared_acquire shared_release.

(** ** Pipelines of the test suite

    The pipelines of [test/index.test.ts], with values that are
    strings, numbers, errors, [null] or [Object.prototype], and a world
    that is the list of calls recorded by the mocks. *)

Inductive jsval : Type :=
| JUndefined
| JNull
| JNum (n : Z)
| JStr (s : string)
| JError (message : string)
| JObjectPrototype.

Definition jsval_kind (v : jsval) : value_kind :=
  match v with
  | JUndefined | JNum _ | JStr _ => KPrimitive
  | JNull => KNull
  | JError _ | JObjectPrototype => KObject
  end.

Definition node : js jsval := mkJs JUndefined JObjectPrototype jsval_kind.

(** [releaseMock(resource, exit.isError, exit.error)], with the name of
    the mock. *)
Definition mock_calls : Type := list (string * jsval * bool * jsval).

Definition returns (v : jsval)
    : results_object jsval → mock_calls → mock_calls * settled jsval jsval :=
  λ _ w, (w, Resolved v).

Definition throws (e : jsval)
    : results_object jsval → mock_calls → mock_calls * settled jsval jsval :=
  λ _ w, (w, Rejected e).

(** An acquire that reads [prev[k]] and fails when it is missing. *)
Definition returns_given (k : string) (v : jsval)
    : results_object jsval → mock_calls → mock_calls * settled jsval jsval :=
  λ prev w,
    match own prev !! k with
    | Some _ => (w, Resolved v)
    | None => (w, Rejected (JError "missing"))
    end.

Definition records (name : string)
    : jsval → Exit jsval → mock_calls → mock_calls * settled jsval unit :=
  λ resource exit w,
    (w ++ [(name, resource, isError exit, default JUndefined (error exit))],
     Resolved ()).

Definition release_throws (e : jsval)
    : jsval → Exit jsval → mock_calls → mock_calls * settled jsval unit :=
  λ _ _ w, (w, Rejected e).

(** single-step with synchronous acquire and release *)
Definition single_step : list (AcquireRelease jsval mock_calls) :=
  [mkStep "res1" (returns (JStr "bar")) (Some (records "res1"))].

(** multi-step with mixed sync/async *)
Definition db_then_file : list (AcquireRelease jsval mock_calls) :=
  [mkStep "db" (returns (JStr "fakeDbClient")) (Some (records "db"));
   mkStep "file" (returns_given "db" (JStr "fakeFileHandle"))
     (Some (records "file"))].

(** rollback if second (async) acquire fails, first release is sync *)
Definition second_acquire_fails : list (AcquireRelease jsval mock_calls) :=
  [mkStep "first" (returns (JStr "first")) (Some (records "first"));
   mkStep "failing"
     (throws (JError "Acquisition of failing resource failed")) None].

(** all acquires succeed, but final release fails *)
Definition last_release_fails : list (AcquireRelease jsval mock_calls) :=
  [mkStep "res1" (returns (JStr "res1")) (Some (records "res1"));
   mkStep "res2" (returns_given "res1" (JStr "res2"))
     (Some (release_throws (JError "release2 fails on success path")))].

(** A rollback in which two of three releases fail. *)
Definition rollback_release_fails : list (AcquireRelease jsval mock_calls) :=
  [mkStep "a" (returns (JNum 1)) (Some (release_throws (JError "release a")));
   mkStep "b" (returns (JNum 2)) (Some (records "b"));
   mkStep "c" (returns (JNum 3)) (Some (release_throws (JError "release c")));
   mkStep "d" (throws (JError "acquire d")) (Some (records "d"))].

(** Two steps with the same tag, then a third step. *)
Definition same_tag_twice : list (AcquireRelease jsval mock_calls) :=
  [mkStep "a" (returns (JNum 1)) (Some (records "first a"));
   mkStep "a" (returns (JNum 2)) (Some (records "second a"));
   mkStep "b" (returns (JNum 3)) None].

(** Three steps with the same tag; the third acquires what the first
    acquired. *)
Definition same_tag_thrice : list (AcquireRelease jsval mock_calls) :=
  [mkStep "a" (returns (JNum 1)) (Some (records "first a"));
   mkStep "a" (returns (JNum 2)) (Some (records "second a"));
   mkStep "a" (returns (JNum 1)) (Some (records "third a"))].

(** Two steps with the same tag that acquire the same resource. *)
Definition same_resource_twice : list (AcquireRelease jsval mock_calls) :=
  [mkStep "a" (returns (JStr "shared")) (Some (records "first a"));
   mkStep "a" (returns (JStr "shared")) (Some (records "second a"))].

(** A step tagged [__proto__] that acquires a string, then a step with
    an ordinary tag. *)
Definition proto_tag_string : list (AcquireRelease jsval mock_calls) :=
  [mkStep "__proto__" (returns (JStr "bar")) (Some (records "proto"));
   mkStep "next" (returns (JNum 1)) None].

(** Two steps tagged [__proto__] that acquire numbers. *)
Definition proto_tag_twice : list (AcquireRelease jsval mock_calls) :=
  [mkStep "__proto__" (returns (JNum 1)) (Some (records "first"));
   mkStep "__proto__" (returns (JNum 2)) (Some (records "second"))].

(** A step tagged [__proto__] that acquires an object (an [Error]). *)
Definition proto_tag_object : list (AcquireRelease jsval mock_calls) :=
  [mkStep "__proto__" (returns (JError "resource")) (Some (records "proto"))].

(** A step tagged [__proto__] that acquires [null], twice. *)
Definition proto_tag_null : list (AcquireRelease jsval mock_calls) :=
  [mkStep "__proto__" (returns JNull) (Some (records "first"));
   mkStep "__proto__" (returns (JNum 2)) (Some (records "second"))].

Definition trace_of (tasks : list (AcquireRelease jsval mock_calls))
    : list (event jsval) :=
  (runTransaction node tasks []).1.2.

Definition outcome_of (tasks : list (AcquireRelease jsval mock_calls))
    : outcome jsval :=
  (runTransaction node tasks []).2.

Definition mocks_of (tasks : list (AcquireRelease jsval mock_calls))
    : mock_calls :=
  (runTransaction node tasks []).1.1.

(** Two builders that declare the same step, each on an array of its
    own: [createTransaction().add(..)] and [createScope().add(..)]. *)
Definition two_builders
    : store jsval mock_calls * Builder * Builder :=
  let '(σ1, b1) := createTransaction [] in
  let '(σ2, b1) :=
    add b1 "res1" (returns (JStr "bar")) (Some (records "res1")) σ1 in
  let '(σ3, b2) := createScope σ2 in
  let '(σ4, b2) :=
    add b2 "res1" (returns (JStr "bar")) (Some (records "res1")) σ3 in
  (σ4, b1, b2).

(** The same two pipelines with steps that could reach the builder and
    do not. *)
Definition quiet_step : SharedStep jsval mock_calls :=
  mkShared "res1"
    (λ _ w, (w, Resolved (JStr "bar"), []))
    (Some (λ resource exit w,
             (w ++ [("res1", resource, isError exit,
                     default JUndefined (error exit))],
              Resolved (), []))).

Definition two_quiet_pipelines : shared_store jsval mock_calls :=
  [[quiet_step]; [quiet_step]].

(** A pipeline whose first acquire calls [add] on its own builder:
    [const b = createTransaction(); b.add("a", () => { b.add("x", ..);
    return 1 })]. *)
Definition pushed_step : SharedStep jsval mock_calls :=
  mkShared "x" (λ _ w, (w, Resolved (JNum 2), [])) None.

Definition pushing_step : SharedStep jsval mock_calls :=
  mkShared "a" (λ _ w, (w, Resolved (JNum 1), [(0, pushed_step)])) None.

Definition self_extending : shared_store jsval mock_calls :=
  [[pushing_step]].

(** * Properties *)

Section Facts.
Context {value W : Type}.
Variable J : js value.

#[local] Abbreviation step := (AcquireRelease value W).
#[local] Abbreviation trace := (list (event value)).

(** ** The run as an acquire phase followed by a release loop *)

Lemma acquire_loop_forward (tasks rest : list step) i results (w : W) :
  acquire_loop J tasks rest i results w =
  let '(w1, evs1, res, vs, f) := forward J rest i results w in
  let '(w2, evs2, errs) :=
    release_loop J res (exit_of f)
      (reverse (take (length vs + i) tasks)) w1 in
  (w2, evs1 ++ evs2, finish f res errs).
Proof.
  revert i results w.
  induction rest as [|task rest IH]; intros i results w; simpl.
  - destruct (release_loop _ _ _ _ _) as [[w' evs] errs].
    by destruct errs.
  - destruct (acquire task results w) as [w1 [v|e]].
    + rewrite IH.
      destruct (forward J rest _ _ _) as [[[[w2 evs] res] vs] f]; simpl.
      rewrite Nat.add_succ_r.
      by destruct (release_loop _ _ _ _ _) as [[w3 evs2] errs].
    + simpl.
      destruct (release_loop _ _ _ _ _) as [[w2 evs] errs].
      by destruct errs.
Qed.

Lemma forward_trace (rest : list step) i results (w : W) w1 evs res vs f :
  forward J rest i results w = (w1, evs, res, vs, f) →
  evs = acquire_trace J i results (tag <$> rest) vs f ∧
  res = assign_all J results (zip (tag <$> rest) vs) ∧
  (f = None → length vs = length rest) ∧
  (is_Some f → length vs < length rest).
Proof.
  revert i results w w1 evs res vs f.
  induction rest as [|task rest IH]; intros i results w w1 evs res vs f; simpl.
  - intros [= <- <- <- <- <-]. split_and!; try done.
  - destruct (acquire task results w) as [w' [v|e]].
    + destruct (forward J rest _ _ _) as [[[[w2 evs'] res'] vs'] f'] eqn:Hfw.
      intros [= <- <- <- <- <-].
      apply IH in Hfw as (-> & -> & Hn & Hs). simpl.
      split_and!; try done.
      * intros Hf. by rewrite Hn.
      * intros Hf. apply Hs in Hf. lia.
    + intros [= <- <- <- <- <-]. simpl. split_and!; try done.
      intros _. lia.
Qed.

Lemma run_phases (tasks : list step) (w w' : W) tr out :
  runTransaction J tasks w = (w', tr, out) →
  ∃ w1 vs f evs2 errs,
    tr = acquire_trace J 0 empty_results (tag <$> tasks) vs f ++ evs2 ∧
    release_loop J (assign_all J empty_results (zip (tag <$> tasks) vs))
      (exit_of f)
      (reverse (take (length vs) tasks)) w1 = (w', evs2, errs) ∧
    out = finish f (assign_all J empty_results (zip (tag <$> tasks) vs)) errs ∧
    (f = None → length vs = length tasks) ∧
    (is_Some f → length vs < length tasks).
Proof.
  unfold runTransaction. rewrite acquire_loop_forward.
  destruct (forward J tasks 0 empty_results w)
    as [[[[w1 evs1] res] vs] f] eqn:Hfw.
  apply forward_trace in Hfw as (-> & -> & Hn & Hs).
  rewrite Nat.add_0_r.
  destruct (release_loop _ _ _ _ _) as [[w2 evs2] errs] eqn:Hrel.
  intros [= <- <- <-]. by exists w1, vs, f, evs2, errs.
Qed.

(** ** Reading the trace of an acquire phase *)

Lemma acquire_trace_release_calls i results tags (vs : list value) f :
  release_calls (acquire_trace J i results tags vs f) = [].
Proof.
  revert i results vs.
  induction tags as [|k tags IH]; intros i results vs; simpl.
  - by destruct f.
  - destruct vs as [|v vs]; [by destruct f|]. apply IH.
Qed.

Lemma acquire_trace_release_failures i results tags (vs : list value) f :
  release_failures (acquire_trace J i results tags vs f) = [].
Proof.
  revert i results vs.
  induction tags as [|k tags IH]; intros i results vs; simpl.
  - by destruct f.
  - destruct vs as [|v vs]; [by destruct f|]. apply IH.
Qed.

Lemma acquire_trace_failure i results tags (vs : list value) f evs :
  acquire_failure (acquire_trace J i results tags vs f ++ evs) =
  match f with Some e => Some e | None => acquire_failure evs end.
Proof.
  revert i results vs.
  induction tags as [|k tags IH]; intros i results vs; simpl.
  - by destruct f.
  - destruct vs as [|v vs]; [by destruct f|]. apply IH.
Qed.

Lemma acquired_resource_call i prev (evs : trace) j :
  acquired_resource (AcquireCall i prev :: evs) j = acquired_resource evs j.
Proof. done. Qed.

Lemma acquired_resource_done i (v : value) (evs : trace) j :
  acquired_resource (AcquireDone i (Resolved v) :: evs) j =
  if decide (i = j) then Some v else acquired_resource evs j.
Proof. unfold acquired_resource. simpl. by case_decide. Qed.

Lemma acquire_trace_resource i results tags (vs : list value) f evs j :
  length vs ≤ length tags →
  acquired_resource (acquire_trace J i results tags vs f ++ evs) j =
  if decide (i ≤ j)
  then match vs !! (j - i) with
       | Some v => Some v
       | None => acquired_resource evs j
       end
  else acquired_resource evs j.
Proof.
  revert i results vs.
  induction tags as [|k tags IH]; intros i results vs Hlen; simpl.
  - destruct vs; [|simpl in Hlen; lia].
    rewrite lookup_nil. destruct f; by case_decide.
  - destruct vs as [|v vs].
    + rewrite lookup_nil. destruct f; by case_decide.
    + simpl in Hlen. rewrite <- !app_comm_cons.
      rewrite acquired_resource_call, acquired_resource_done.
      destruct (decide (i = j)) as [->|Hne].
      * rewrite decide_True by lia. by rewrite Nat.sub_diag.
      * rewrite IH by lia.
        destruct (decide (i ≤ j)) as [Hle|Hgt].
        -- rewrite decide_True by lia.
           replace (j - i) with (S (j - S i)) by lia. done.
        -- by rewrite decide_False by lia.
Qed.

(** A call of [acquire] sits after the acquires of all earlier steps
    and gets the mapping assigned so far. *)
Lemma acquire_trace_call i results tags (vs : list value) f p j prev :
  acquire_trace J i results tags vs f !! p = Some (AcquireCall j prev) →
  ∃ n, j = i + n ∧ n ≤ length vs ∧ n ≤ length tags ∧
    prev = assign_all J results (zip (take n tags) (take n vs)) ∧
    take p (acquire_trace J i results tags vs f) =
      acquire_trace J i results (take n tags) (take n vs) None.
Proof.
  revert i results vs p.
  induction tags as [|k tags IH]; intros i results vs p; simpl.
  - destruct f as [e|]; [|done].
    destruct p as [|[|p]]; [|done..].
    intros [= <- <-]. exists 0. rewrite Nat.add_0_r, take_0. simpl.
    split_and!; try done; lia.
  - destruct vs as [|v vs].
    + destruct f as [e|]; [|done].
      destruct p as [|[|p]]; [|done..].
      intros [= <- <-]. exists 0. rewrite Nat.add_0_r. simpl.
      split_and!; try done; lia.
    + destruct p as [|[|p]]; [|done|].
      * intros [= <- <-]. exists 0. rewrite Nat.add_0_r. simpl.
        split_and!; try done; lia.
      * simpl. intros Hp.
        apply IH in Hp as (n & -> & Hn1 & Hn2 & -> & Htake).
        exists (S n). simpl. rewrite Htake.
        split_and!; try done; lia.
Qed.

(** ** The mapping built by successive assignments *)

Lemma insert_all_snoc (m : gmap string value) kvs k v :
  insert_all m (kvs ++ [(k, v)]) = <[k := v]> (insert_all m kvs).
Proof. unfold insert_all. by rewrite foldl_app. Qed.

Lemma insert_all_dom (kvs : list (string * value)) :
  dom (insert_all ∅ kvs) = list_to_set kvs.*1.
Proof.
  induction kvs as [|[k v] kvs IH] using rev_ind.
  - unfold insert_all. simpl. by rewrite dom_empty_L.
  - rewrite insert_all_snoc, dom_insert_L, IH, fmap_app, list_to_set_app_L.
    simpl. by rewrite (right_id_L ∅ (∪)), (comm_L (∪)).
Qed.

Lemma insert_all_lookup (kvs : list (string * value)) j k v :
  kvs !! j = Some (k, v) →
  (∀ j' k' v', j < j' → kvs !! j' = Some (k', v') → k' ≠ k) →
  insert_all ∅ kvs !! k = Some v.
Proof.
  revert j. induction kvs as [|[k0 v0] kvs IH] using rev_ind; intros j Hj Hlast.
  - by rewrite lookup_nil in Hj.
  - rewrite insert_all_snoc.
    destruct (decide (j = length kvs)) as [->|Hne].
    + rewrite list_lookup_middle in Hj by done.
      injection Hj as -> ->. by rewrite lookup_insert_eq.
    + assert (j < length kvs) as Hlt.
      { apply lookup_lt_Some in Hj. rewrite length_app in Hj.
        simpl in Hj. lia. }
      rewrite lookup_app_l in Hj by done.
      rewrite lookup_insert_ne.
      * apply (IH j); [done|]. intros j' k' v' Hjj' Hj'.
        apply (Hlast j' k' v'); [done|].
        rewrite lookup_app_l; [done|]. by eapply lookup_lt_Some.
      * apply (Hlast (length kvs) k0 v0); [lia|].
        by rewrite list_lookup_middle.
Qed.

Lemma insert_all_lookup_last (tasks : list step) (vs : list value) n j t v :
  j < n → tasks !! j = Some t → vs !! j = Some v →
  last_with_tag tasks n j →
  insert_all ∅ (zip (take n (tag <$> tasks)) (take n vs)) !! tag t = Some v.
Proof.
  intros Hj Ht Hv Hlast.
  apply (insert_all_lookup _ j).
  - apply lookup_zip_with_Some. exists (tag t), v.
    rewrite !lookup_take_lt by done.
    by rewrite list_lookup_fmap, Ht.
  - intros j' k' v' Hjj' Hj'.
    apply lookup_zip_with_Some in Hj' as (k'' & v'' & [= <- <-] & Hk & _).
    apply lookup_take_Some in Hk as [Hk Hj'n].
    rewrite list_lookup_fmap in Hk.
    destruct (tasks !! j') as [t'|] eqn:Ht'; [|done].
    injection Hk as <-. by apply (Hlast j' t t').
Qed.

Lemma insert_all_last_entry (tasks : list step) (tr : trace) n vs :
  n ≤ length vs →
  (∀ j, j < n → acquired_resource tr j = vs !! j) →
  last_entry_per_tag tasks tr n
    (insert_all ∅ (zip (take n (tag <$> tasks)) (take n vs))).
Proof.
  intros Hn Hres. split.
  - rewrite insert_all_dom, fst_zip, fmap_take; [done|].
    rewrite !length_take, length_fmap. lia.
  - intros j t Hj Ht Hlast.
    destruct (lookup_lt_is_Some_2 vs j) as [v Hv]; [lia|].
    exists v. split; [by rewrite Hres|].
    by apply (insert_all_lookup_last tasks vs n j).
Qed.

(** The resource under the tag of step [j] once [n] steps have been
    acquired, when no later acquired step carries that tag. *)
Lemma insert_all_overwritten (tasks : list step) (vs : list value) n j tj :
  n ≤ length vs → j < n → tasks !! j = Some tj →
  (∀ l tl, j < l → tasks !! l = Some tl → tag tl = tag tj → vs !! l = None) →
  insert_all ∅ (zip (take n (tag <$> tasks)) (take n vs)) !! tag tj = vs !! j.
Proof.
  intros Hn Hj Htj Hlast.
  destruct (lookup_lt_is_Some_2 vs j) as [v Hv]; [lia|]. rewrite Hv.
  apply (insert_all_lookup_last tasks vs n j); [done..|].
  intros l t tl Ht Htl Hjl Heq. rewrite Htj in Ht. injection Ht as <-.
  specialize (Hlast l tl ltac:(lia) Htl Heq).
  apply lookup_ge_None in Hlast. lia.
Qed.

Lemma last_entry_one_entry (tasks : list step) (tr : trace) n m :
  n ≤ length tasks →
  NoDup (tag <$> take n tasks) →
  last_entry_per_tag tasks tr n m →
  one_entry_per_step tasks tr n m.
Proof.
  intros Hn Hnd [Hdom Hlook]. split.
  - rewrite <-size_dom, Hdom, size_list_to_set by done.
    rewrite length_fmap, length_take. lia.
  - intros j t Hj Ht. apply Hlook; [done..|].
    intros j' t0 t' Ht0 Ht' Hjj' Heq.
    rewrite Ht in Ht0. injection Ht0 as <-.
    assert (j = j'); [|lia].
    eapply (NoDup_lookup _ j j' (tag t) Hnd).
    + by rewrite list_lookup_fmap, lookup_take_lt, Ht by done.
    + rewrite list_lookup_fmap, lookup_take_lt, Ht' by lia. simpl.
      by rewrite Heq.
Qed.

(** ** The mapping as an object *)

Lemma assign_ordinary (o : results_object value) k v :
  k ≠ proto_key →
  assign J o k v = mkResults (<[k := v]> (own o)) (prototype_of o).
Proof. intros Hk. unfold assign. by rewrite decide_False. Qed.

(** An assignment to [__proto__] leaves the other keys alone. *)
Lemma own_assign_other (o : results_object value) k k' v :
  k ≠ proto_key →
  own (assign J o k' v) !! k = <[k' := v]> (own o) !! k.
Proof.
  intros Hk. unfold assign.
  destruct (decide (k' = proto_key)) as [->|]; [|done].
  destruct (own o !! proto_key), (prototype_of o), (kind_of J v);
    simpl; try done; by rewrite lookup_insert_ne.
Qed.

Lemma assign_all_snoc (o : results_object value) kvs k v :
  assign_all J o (kvs ++ [(k, v)]) = assign J (assign_all J o kvs) k v.
Proof. unfold assign_all. by rewrite foldl_app. Qed.

Lemma own_assign_all_other (o : results_object value) kvs k :
  k ≠ proto_key →
  own (assign_all J o kvs) !! k = insert_all (own o) kvs !! k.
Proof.
  intros Hk. induction kvs as [|[k0 v0] kvs IH] using rev_ind; [done|].
  rewrite assign_all_snoc, insert_all_snoc, own_assign_other by done.
  destruct (decide (k0 = k)) as [->|Hne].
  - by rewrite !lookup_insert_eq.
  - by rewrite !lookup_insert_ne.
Qed.

(** Without the tag [__proto__] the object is the finite map of the
    assignments, and its prototype stays what it was. *)
Lemma assign_all_ordinary (o : results_object value) kvs :
  proto_key ∉ kvs.*1 →
  assign_all J o kvs = mkResults (insert_all (own o) kvs) (prototype_of o).
Proof.
  induction kvs as [|[k0 v0] kvs IH] using rev_ind; intros Hk.
  - by destruct o.
  - rewrite fmap_app, not_elem_of_app in Hk. destruct Hk as [Hk Hk0].
    rewrite assign_all_snoc, insert_all_snoc, IH by done.
    rewrite assign_ordinary; [done|].
    intros ->. apply Hk0. simpl. left.
Qed.

Lemma read_own (o : results_object value) k :
  k ≠ proto_key → read J o k = default (undefined J) (own o !! k).
Proof.
  intros Hk. unfold read. destruct (own o !! k); [done|].
  by rewrite decide_False.
Qed.

(** ** Reading the trace of a release loop *)

Lemma release_calls_lookup (evs : trace) p i resource exit :
  evs !! p = Some (ReleaseCall i resource exit) →
  (i, resource, exit) ∈ release_calls evs.
Proof.
  intros Hp. apply list_elem_of_omap.
  exists (ReleaseCall i resource exit). split; [|done].
  by eapply list_elem_of_lookup_2.
Qed.

Lemma release_calls_elem (evs : trace) i resource exit :
  (i, resource, exit) ∈ release_calls evs →
  ∃ p, evs !! p = Some (ReleaseCall i resource exit).
Proof.
  intros (ev & Hev & Heq)%list_elem_of_omap.
  apply list_elem_of_lookup_1 in Hev as [p Hp]. exists p.
  destruct ev; try done. by injection Heq as -> -> ->.
Qed.

Lemma release_trace_mono n m (evs : trace) :
  n ≤ m → release_trace n evs → release_trace m evs.
Proof.
  intros Hnm Hevs. destruct Hevs as [|n i resource exit r evs Hi Hevs].
  - constructor.
  - constructor; [lia|done].
Qed.

Lemma release_trace_no_acquire n (evs : trace) j :
  release_trace n evs →
  acquire_failure evs = None ∧ acquired_resource evs j = None.
Proof.
  induction 1 as [|n i resource exit r evs Hi Hevs IH]; [done|]. apply IH.
Qed.

Lemma release_trace_calls_lt n (evs : trace) c :
  release_trace n evs → c ∈ release_calls evs → c.1.1 < n.
Proof.
  induction 1 as [|n i resource exit r evs Hi Hevs IH]; simpl.
  - by intros ?%elem_of_nil.
  - unfold release_calls. simpl.
    intros [->|Hc]%elem_of_cons; [done|].
    apply IH in Hc. lia.
Qed.

Lemma release_trace_failures n (evs : trace) :
  release_trace n evs →
  decreasing (release_failures evs).*1 ∧
  ∀ x, x ∈ (release_failures evs).*1 → x < n.
Proof.
  induction 1 as [|n i resource exit r evs Hi Hevs [IHd IHlt]].
  - split; [by intros a b x y ?|]. by intros x ?%elem_of_nil.
  - unfold release_failures. simpl. destruct r as [[]|e]; simpl.
    + split; [done|]. intros x Hx. apply IHlt in Hx. lia.
    + split.
      * intros [|a] [|b] x y Ha Hb Hab; try lia.
        -- injection Ha as <-. apply IHlt.
           apply (list_elem_of_lookup_2 _ b). exact Hb.
        -- apply (IHd a b); [exact Ha|exact Hb|lia].
      * intros x [->|Hx]%elem_of_cons; [done|]. apply IHlt in Hx. lia.
Qed.

(** A release call is followed at once by the event of its settling. *)
Lemma release_trace_done n (evs : trace) p j rj exj :
  release_trace n evs →
  evs !! p = Some (ReleaseCall j rj exj) →
  ∃ r, evs !! S p = Some (ReleaseDone j r).
Proof.
  intros Hevs. revert p.
  induction Hevs as [|n k resource exit r evs Hk Hevs IH]; intros p Hp.
  - by rewrite lookup_nil in Hp.
  - destruct p as [|[|p]]; simpl in *; try done.
    + injection Hp as <- <- <-. by exists r.
    + by apply IH.
Qed.

(** A release that comes later in the trace has a smaller index. *)
Lemma release_trace_order n (evs : trace) p q i j ri rj exi exj :
  release_trace n evs →
  evs !! p = Some (ReleaseCall j rj exj) →
  evs !! q = Some (ReleaseCall i ri exi) →
  p < q ↔ i < j.
Proof.
  intros Hevs. revert p q.
  induction Hevs as [|n k resource exit r evs Hk Hevs IH]; intros p q Hp Hq.
  - by rewrite lookup_nil in Hp.
  - destruct p as [|[|p]], q as [|[|q]]; simpl in *; try done.
    + injection Hp as <- <- <-. injection Hq as <- <- <-. lia.
    + injection Hp as <- <- <-.
      assert (i < k); [|lia].
      apply (release_trace_calls_lt k evs (i, ri, exi) Hevs).
      by eapply release_calls_lookup.
    + injection Hq as <- <- <-.
      assert (j < k); [|lia].
      apply (release_trace_calls_lt k evs (j, rj, exj) Hevs).
      by eapply release_calls_lookup.
    + specialize (IH p q Hp Hq). lia.
Qed.

Lemma release_trace_only n (evs : trace) p i prev :
  release_trace n evs → evs !! p ≠ Some (AcquireCall i prev).
Proof.
  intros Hevs. revert p.
  induction Hevs as [|n k resource exit r evs Hk Hevs IH]; intros p.
  - by rewrite lookup_nil.
  - destruct p as [|[|p]]; simpl; [done..|]. apply IH.
Qed.

(** ** The release loop *)

Lemma filter_none {A} (P : A → Prop) `{!∀ x, Decision (P x)} (l : list A) :
  (∀ x, x ∈ l → ¬ P x) → filter P l = [].
Proof.
  induction l as [|x l IH]; intros Hl; [done|].
  rewrite filter_cons_False by (apply Hl; left).
  apply IH. intros y Hy. apply Hl. by right.
Qed.

Lemma release_loop_trace results exit (acquired : list step) (w w' : W)
    evs errs :
  release_loop J results exit acquired w = (w', evs, errs) →
  release_trace (length acquired) evs ∧ release_errors evs = errs.
Proof.
  revert w w' evs errs.
  induction acquired as [|task below IH]; intros w w' evs errs; simpl.
  - intros [= <- <- <-]. split; [constructor|done].
  - destruct (release task) as [rel|].
    + destruct (rel _ exit w) as [w1 r].
      destruct (release_loop _ _ _ below w1) as [[w2 evs'] errs'] eqn:Hloop.
      intros [= <- <- <-]. apply IH in Hloop as [Htr <-]. split.
      * constructor; [lia|done].
      * unfold release_errors, release_failures. simpl.
        by destruct r as [[]|e].
    + intros Hloop. apply IH in Hloop as [Htr <-]. split; [|done].
      eapply release_trace_mono; [|done]. lia.
Qed.

(** Every release call gets the loop's [Exit] and [results[tag]] for
    the tag of its step, which has a release function. *)
Lemma release_loop_calls results exit (acquired : list step) (w w' : W)
    evs errs i resource ex :
  release_loop J results exit acquired w = (w', evs, errs) →
  (i, resource, ex) ∈ release_calls evs →
  ex = exit ∧
  ∃ t, reverse acquired !! i = Some t ∧ is_Some (release t) ∧
       resource = read J results (tag t).
Proof.
  revert w w' evs errs.
  induction acquired as [|task below IH]; intros w w' evs errs; simpl.
  - intros [= <- <- <-]. by intros ?%elem_of_nil.
  - rewrite reverse_cons.
    assert (∀ t, reverse below !! i = Some t →
                 (reverse below ++ [task]) !! i = Some t) as Hbelow.
    { intros t Ht. rewrite lookup_app_l; [done|]. by eapply lookup_lt_Some. }
    destruct (release task) as [rel|] eqn:Hrel.
    + destruct (rel _ exit w) as [w1 r].
      destruct (release_loop _ _ _ below w1) as [[w2 evs'] errs'] eqn:Hloop.
      intros [= <- <- <-]. unfold release_calls. simpl.
      intros [[= -> -> ->]|Hc]%elem_of_cons.
      * split; [done|]. exists task. split_and!; [|by rewrite Hrel|done].
        rewrite <-length_reverse. by apply list_lookup_middle.
      * destruct (IH _ _ _ _ Hloop Hc) as (-> & t & Ht & Hrt & ->).
        split; [done|]. exists t. auto.
    + intros Hloop Hc.
      destruct (IH _ _ _ _ Hloop Hc) as (-> & t & Ht & Hrt & ->).
      split; [done|]. exists t. auto.
Qed.

(** Every step of the loop that has a release function is released
    exactly once, whatever the other releases do. *)
Lemma release_loop_once results exit (acquired : list step) (w w' : W)
    evs errs i t :
  release_loop J results exit acquired w = (w', evs, errs) →
  reverse acquired !! i = Some t →
  is_Some (release t) →
  length (filter (λ c, c.1.1 = i) (release_calls evs)) = 1.
Proof.
  revert w w' evs errs.
  induction acquired as [|task below IH]; intros w w' evs errs; simpl.
  - by rewrite reverse_nil, lookup_nil.
  - rewrite reverse_cons. intros Hloop Hi Hrt.
    destruct (decide (i = length below)) as [->|Hne].
    + rewrite <-(length_reverse below), list_lookup_middle in Hi by done.
      injection Hi as <-. destruct Hrt as [rel Hrel]. rewrite Hrel in Hloop.
      destruct (rel _ exit w) as [w1 r].
      destruct (release_loop _ _ _ below w1) as [[w2 evs'] errs'] eqn:Hbelow.
      injection Hloop as <- <- <-. unfold release_calls. simpl.
      rewrite filter_cons_True by done. simpl. f_equal.
      apply release_loop_trace in Hbelow as [Htr _].
      apply length_zero_iff_nil, filter_none.
      intros c Hc. apply (release_trace_calls_lt _ _ _ Htr) in Hc. lia.
    + assert (i < length below) as Hlt.
      { apply lookup_lt_Some in Hi. rewrite length_app, length_reverse in Hi.
        simpl in Hi. lia. }
      rewrite lookup_app_l in Hi by by rewrite length_reverse.
      destruct (release task) as [rel|].
      * destruct (rel _ exit w) as [w1 r].
        destruct (release_loop _ _ _ below w1) as [[w2 evs'] errs'] eqn:Hbelow.
        injection Hloop as <- <- <-. unfold release_calls. simpl.
        rewrite filter_cons_False by (simpl; lia).
        by eapply IH.
      * by eapply IH.
Qed.

(** ** The trace of a run *)

Lemma run_shape (tasks : list step) (w w' : W) tr out :
  runTransaction J tasks w = (w', tr, out) →
  ∃ w1 vs f evs2 errs,
    tr = acquire_trace J 0 empty_results (tag <$> tasks) vs f ++ evs2 ∧
    release_loop J (assign_all J empty_results (zip (tag <$> tasks) vs))
      (exit_of f)
      (reverse (take (length vs) tasks)) w1 = (w', evs2, errs) ∧
    out = finish f (assign_all J empty_results (zip (tag <$> tasks) vs)) errs ∧
    length vs ≤ length tasks ∧
    (f = None → length vs = length tasks) ∧
    release_trace (length vs) evs2 ∧
    acquire_failure tr = f ∧
    (∀ j, acquired_resource tr j = vs !! j) ∧
    release_calls tr = release_calls evs2 ∧
    release_failures tr = release_failures evs2 ∧
    release_errors tr = errs.
Proof.
  intros (w1 & vs & f & evs2 & errs & -> & Hloop & -> & Hn & Hs)%run_phases.
  exists w1, vs, f, evs2, errs.
  assert (length vs ≤ length tasks) as Hle.
  { destruct f as [e|]; [|rewrite Hn by done; lia].
    assert (is_Some (Some e)) as Hf by done. apply Hs in Hf. lia. }
  pose proof (release_loop_trace _ _ _ _ _ _ _ Hloop) as [Htr Herrs].
  rewrite length_reverse, length_take_le in Htr by done.
  split_and!; try done.
  - rewrite acquire_trace_failure.
    destruct f; [done|].
    by apply (release_trace_no_acquire _ _ 0) in Htr as [? _].
  - intros j. rewrite acquire_trace_resource by (rewrite length_fmap; lia).
    rewrite decide_True, Nat.sub_0_r by lia.
    destruct (vs !! j); [done|].
    by apply (release_trace_no_acquire _ _ j) in Htr as [_ ?].
  - unfold release_calls. rewrite omap_app.
    fold (release_calls (acquire_trace J 0 empty_results (tag <$> tasks) vs f)).
    by rewrite acquire_trace_release_calls.
  - unfold release_failures. rewrite omap_app.
    fold (release_failures
            (acquire_trace J 0 empty_results (tag <$> tasks) vs f)).
    by rewrite acquire_trace_release_failures.
  - unfold release_errors, release_failures. rewrite omap_app.
    fold (release_failures
            (acquire_trace J 0 empty_results (tag <$> tasks) vs f)).
    by rewrite acquire_trace_release_failures.
Qed.

(** A release call of the run is a call of its release loop. *)
Lemma run_release_position i results tags (vs : list value) f (evs2 : trace)
    p j resource exit :
  (acquire_trace J i results tags vs f ++ evs2) !! p
    = Some (ReleaseCall j resource exit) →
  ∃ p', p = length (acquire_trace J i results tags vs f) + p' ∧
        evs2 !! p' = Some (ReleaseCall j resource exit).
Proof.
  intros Hp. apply lookup_app_Some in Hp as [Hp|[Hge Hp]].
  - apply release_calls_lookup in Hp.
    rewrite acquire_trace_release_calls in Hp. by apply elem_of_nil in Hp.
  - exists (p - length (acquire_trace J i results tags vs f)).
    split; [lia|done].
Qed.

(** An acquire call of the run is a call of its acquire phase. *)
Lemma run_acquire_position n (acq evs2 : trace) p j prev :
  release_trace n evs2 →
  (acq ++ evs2) !! p = Some (AcquireCall j prev) →
  p < length acq ∧ acq !! p = Some (AcquireCall j prev).
Proof.
  intros Htr Hp. apply lookup_app_Some in Hp as [Hp|[Hge Hp]].
  - split; [by eapply lookup_lt_Some|done].
  - by apply (release_trace_only _ _ _ j prev Htr) in Hp.
Qed.

Lemma release_trace_take_failure n (evs : trace) k :
  release_trace n evs → acquire_failure (take k evs) = None.
Proof.
  intros Hevs. revert k.
  induction Hevs as [|n i resource exit r evs Hi Hevs IH]; intros k.
  - by rewrite take_nil.
  - destruct k as [|[|k]]; [done..|]. apply IH.
Qed.

(** ** The claims *)

(** The mapping after [n] acquires when none of their tags is
    [__proto__]: a plain object whose own properties are the finite
    map of the assignments. *)
Lemma results_ordinary (tasks : list step) (vs : list value) n :
  n ≤ length vs →
  proto_key ∉ (tag <$> take n tasks) →
  assign_all J empty_results (zip (take n (tag <$> tasks)) (take n vs))
  = mkResults (insert_all ∅ (zip (take n (tag <$> tasks)) (take n vs)))
      ObjectPrototype.
Proof.
  intros Hn Hk. rewrite assign_all_ordinary; [done|].
  rewrite fst_zip, <-fmap_take; [done|].
  rewrite !length_take, length_fmap. lia.
Qed.


(** C2 (amended).  When the acquire function of step [i] is called,
    the acquires of all steps before [i] have resolved, no acquire has
    failed and no release has been called.  When none of the steps
    before [i] is tagged [__proto__], the mapping it receives is a
    plain object that has exactly the tags of steps [0..i-1] as keys
    and holds, under the tag of every such step whose tag is not
    re-used before [i], the resource of that step; with pairwise
    distinct tags it holds exactly the results of steps [0..i-1]. *)
Theorem acquire_call_invariant (tasks : list step) (w w' : W) tr out
    p i prev :
  runTransaction J tasks w = (w', tr, out) →
  tr !! p = Some (AcquireCall i prev) →
  (∀ j, j < i → is_Some (acquired_resource (take p tr) j)) ∧
  acquire_failure (take p tr) = None ∧
  release_calls (take p tr) = [] ∧
  (proto_key ∉ (tag <$> take i tasks) →
   prototype_of prev = ObjectPrototype ∧
   last_entry_per_tag tasks tr i (own prev) ∧
   (NoDup (tag <$> take i tasks) →
    one_entry_per_step tasks tr i (own prev))).
Proof.
  intros (w1 & vs & f & evs2 & errs & -> & _ & _ & Hle & _ & Htr & _ & Hres
          & _)%run_shape Hp.
  apply (run_acquire_position _ _ _ _ _ _ Htr) in Hp as [Hlt Hp].
  apply acquire_trace_call in Hp as Hcall.
  destruct Hcall as (n & Hi & Hn & Hntags & -> & Htake).
  simpl in Hi. subst n. rewrite length_fmap in Hntags.
  rewrite take_app_le, Htake by lia.
  split_and!.
  - intros j Hj.
    rewrite <-(app_nil_r (acquire_trace J _ _ _ _ _)).
    rewrite acquire_trace_resource
      by (rewrite !length_take, length_fmap; lia).
    rewrite decide_True, Nat.sub_0_r by lia.
    destruct (lookup_lt_is_Some_2 (take i vs) j) as [v ->]; [|done].
    rewrite length_take. lia.
  - rewrite <-(app_nil_r (acquire_trace J _ _ _ _ _)).
    by rewrite acquire_trace_failure.
  - apply acquire_trace_release_calls.
  - intros Hproto. rewrite results_ordinary by done. simpl.
    assert (last_entry_per_tag tasks
              (acquire_trace J 0 empty_results (tag <$> tasks) vs f ++ evs2)
              i (insert_all ∅ (zip (take i (tag <$> tasks)) (take i vs))))
      as Hlast.
    { apply insert_all_last_entry; [done|]. intros j _. apply Hres. }
    split_and!; [done..|].
    intros Hnd. by apply last_entry_one_entry.
Qed.

(** C3.  Releases are called in strictly decreasing step order, on the
    success path and on the rollback path alike: of two release calls
    the one of the larger index comes first, and it has settled (the
    event that follows it) before the other one is called. *)
Theorem release_order (tasks : list step) (w w' : W) tr out
    p q i j ri rj exi exj :
  runTransaction J tasks w = (w', tr, out) →
  tr !! p = Some (ReleaseCall j rj exj) →
  tr !! q = Some (ReleaseCall i ri exi) →
  (p < q ↔ i < j) ∧
  (i < j → ∃ r, tr !! S p = Some (ReleaseDone j r) ∧ S p < q).
Proof.
  intros (w1 & vs & f & evs2 & errs & -> & _ & _ & _ & _ & Htr & _)%run_shape.
  intros (p' & -> & Hp)%run_release_position.
  intros (q' & -> & Hq)%run_release_position.
  pose proof (release_trace_order _ _ _ _ _ _ _ _ _ _ Htr Hp Hq) as Hord.
  split; [lia|]. intros Hij.
  destruct (release_trace_done _ _ _ _ _ _ Htr Hp) as [r Hr].
  exists r. split.
  - rewrite <-Nat.add_succ_r.
    by rewrite lookup_app_r, Nat.add_comm, Nat.add_sub by lia.
  - assert (S p' ≠ q'); [|lia]. intros <-. by rewrite Hr in Hq.
Qed.

(** C4.  When an acquire fails and no release of the rollback fails,
    the runner throws the acquire error itself, not wrapped. *)
Theorem rollback_rethrows (tasks : list step) (w w' : W) tr out e :
  runTransaction J tasks w = (w', tr, out) →
  acquire_failure tr = Some e →
  release_errors tr = [] →
  out = Threw (Raw e).
Proof.
  intros (w1 & vs & f & evs2 & errs & _ & _ & -> & _ & _ & _ & Hf & _ & _ & _
          & Herrs)%run_shape He Hnil.
  rewrite He in Hf. subst f. rewrite Hnil in Herrs. by subst errs.
Qed.

(** C5.  When an acquire fails and some release of the rollback fails,
    the runner throws an [AggregateError] whose errors are the acquire
    error followed by the release errors in the order the releases were
    attempted, which is by decreasing step index. *)
Theorem rollback_aggregates (tasks : list step) (w w' : W) tr out e :
  runTransaction J tasks w = (w', tr, out) →
  acquire_failure tr = Some e →
  release_errors tr ≠ [] →
  out = Threw (AggregateError (e :: (release_failures tr).*2)
                 rollback_message) ∧
  decreasing (release_failures tr).*1.
Proof.
  intros (w1 & vs & f & evs2 & errs & _ & _ & -> & _ & _ & Htr & Hf & _ & _
          & Hfails & Herrs)%run_shape He Hnil.
  rewrite He in Hf. subst f. split.
  - fold (release_errors tr). rewrite Herrs in *. by destruct errs.
  - rewrite Hfails. by apply release_trace_failures in Htr as [? _].
Qed.

(** C6.  When every acquire succeeds and some release fails, the runner
    throws (the mapping is not returned) an [AggregateError] whose
    errors are the release errors alone, by decreasing step index; a
    single release error is wrapped all the same. *)
Theorem success_release_aggregates (tasks : list step) (w w' : W) tr out :
  runTransaction J tasks w = (w', tr, out) →
  acquire_failure tr = None →
  release_errors tr ≠ [] →
  out = Threw (AggregateError (release_failures tr).*2 success_message) ∧
  decreasing (release_failures tr).*1.
Proof.
  intros (w1 & vs & f & evs2 & errs & _ & _ & -> & _ & _ & Htr & Hf & _ & _
          & Hfails & Herrs)%run_shape He Hnil.
  rewrite He in Hf. subst f. split.
  - fold (release_errors tr). rewrite Herrs in *. by destruct errs.
  - rewrite Hfails. by apply release_trace_failures in Htr as [? _].
Qed.




(** Only steps that were acquired and have a release function are
    released: a step declared without one is skipped by both loops. *)
Lemma release_only_acquired (tasks : list step) (w w' : W) tr out
    i resource exit :
  runTransaction J tasks w = (w', tr, out) →
  (i, resource, exit) ∈ release_calls tr →
  ∃ t, tasks !! i = Some t ∧ is_Some (release t) ∧
       is_Some (acquired_resource tr i).
Proof.
  intros (w1 & vs & f & evs2 & errs & _ & Hloop & _ & _ & _ & _ & _ & Hres
          & -> & _)%run_shape Hin.
  destruct (release_loop_calls _ _ _ _ _ _ _ _ _ _ Hloop Hin)
    as (_ & t & Ht & Hrel & _).
  rewrite reverse_involutive in Ht. apply lookup_take_Some in Ht as [Ht Hi].
  exists t. split_and!; [done..|].
  rewrite Hres. by apply lookup_lt_is_Some_2.
Qed.

(** Steps that do not reach the builder leave the store as it is, and
    the release loop over them is the release loop of the plain steps. *)
Lemma release_shared_quiet results exit (acquired : list (SharedStep value W))
    (σ : shared_store value W) (w : W) :
  Forall quiet acquired →
  release_shared J results exit acquired σ w
  = (σ, release_loop J results exit (plain <$> acquired) w).
Proof.
  intros Hq. revert w.
  induction Hq as [|task below [_ Hrel] Hbelow IH]; intros w; [done|].
  cbn [release_shared release_loop fmap list_fmap plain release tag].
  rewrite length_fmap.
  destruct (shared_release task) as [rel|]; [|by rewrite IH].
  specialize (Hrel (read J results (shared_tag task)) exit w).
  destruct (rel _ exit w) as [[w1 r] pushes]. simpl in Hrel. subst pushes.
  simpl. rewrite IH.
  by destruct (release_loop _ _ _ _ w1) as [[w2 evs] errs].
Qed.

Lemma quiet_reverse_take (tasks : list (SharedStep value W)) i :
  Forall quiet tasks →
  Forall quiet (reverse (take i tasks)) ∧
  plain <$> reverse (take i tasks) = reverse (take i (plain <$> tasks)).
Proof.
  intros Hq. split.
  - by apply Forall_reverse, Forall_take.
  - by rewrite fmap_reverse, fmap_take.
Qed.

(** The runner on an array of steps that do not reach the builder is
    the runner on the plain steps, whatever fuel is left beyond the
    number of steps to go; the store is left as it is. *)
Lemma acquire_shared_quiet (σ : shared_store value W) (tasks : nat)
    fuel i results (w : W) :
  Forall quiet (σ !!! tasks) →
  i ≤ length (σ !!! tasks) →
  length (σ !!! tasks) - i < fuel →
  acquire_shared J fuel tasks i results σ w
  = Some (σ,
          acquire_loop J (plain <$> σ !!! tasks)
            (plain <$> drop i (σ !!! tasks)) i results w).
Proof.
  intros Hq. revert i results w.
  induction fuel as [|fuel IH]; intros i results w Hi Hfuel; [lia|].
  destruct (quiet_reverse_take (σ !!! tasks) i Hq) as [Hqr Hplain].
  cbn [acquire_shared].
  destruct ((σ !!! tasks) !! i) as [task|] eqn:Hlook.
  - rewrite (drop_S _ _ _ Hlook).
    cbn [fmap list_fmap acquire_loop plain acquire tag].
    pose proof (Forall_lookup_1 _ _ _ _ Hq Hlook) as [Hacq _].
    specialize (Hacq results w).
    destruct (shared_acquire task results w) as [[w1 r] pushes].
    simpl in Hacq. subst pushes. simpl.
    apply lookup_lt_Some in Hlook as Hlt.
    destruct r as [v|e].
    + rewrite IH by lia.
      by destruct (acquire_loop _ _ _ _ _ w1) as [[w2 evs] out].
    + rewrite release_shared_quiet, Hplain by done.
      by destruct (release_loop _ _ _ _ w1) as [[w2 evs] errs].
  - apply lookup_ge_None in Hlook.
    rewrite drop_ge by done. cbn [fmap list_fmap acquire_loop].
    rewrite release_shared_quiet, Hplain by done.
    by destruct (release_loop _ _ _ _ w) as [[w2 evs] errs].
Qed.


(** The array of a builder made by [add] is the array it was called on
    with the new step at its end; [createTransaction] starts from []. *)
Lemma add_declares (σ : store value W) (b : Builder) k acq rel :
  builder_tasks b < length σ →
  (add b k acq rel σ).1 !!! builder_tasks (add b k acq rel σ).2
    = σ !!! builder_tasks b ++ [mkStep k acq rel].
Proof.
  intros Hb. simpl.
  destruct (lookup_lt_is_Some_2 σ (builder_tasks b) Hb) as [tasks Htasks].
  rewrite (list_lookup_total_correct _ _ _ Htasks).
  apply list_lookup_total_correct.
  unfold store in *. by rewrite list_lookup_alter_eq, Htasks.
Qed.

Lemma createTransaction_declares (σ : store value W) :
  (createTransaction σ).1 !!! builder_tasks (createTransaction σ).2 = [].
Proof.
  simpl. apply list_lookup_total_correct. by apply list_lookup_middle.
Qed.

End Facts.

(** ** The test suite *)

Example single_step_run :
  outcome_of single_step
    = Returned (mkResults {[ "res1" := JStr "bar" ]} ObjectPrototype) ∧
  mocks_of single_step = [("res1", JStr "bar", false, JUndefined)].
Proof. split; vm_compute; reflexivity. Qed.

Example db_then_file_run :
  outcome_of db_then_file
    = Returned (mkResults {[ "db" := JStr "fakeDbClient";
                             "file" := JStr "fakeFileHandle" ]}
                  ObjectPrototype) ∧
  mocks_of db_then_file
    = [("file", JStr "fakeFileHandle", false, JUndefined);
       ("db", JStr "fakeDbClient", false, JUndefined)].
Proof. split; vm_compute; reflexivity. Qed.

Example second_acquire_fails_run :
  outcome_of second_acquire_fails
    = Threw (Raw (JError "Acquisition of failing resource failed")) ∧
  mocks_of second_acquire_fails
    = [("first", JStr "first", true,
        JError "Acquisition of failing resource failed")].
Proof. split; vm_compute; reflexivity. Qed.

Example last_release_fails_run :
  outcome_of last_release_fails
    = Threw (AggregateError [JError "release2 fails on success path"]
               success_message) ∧
  mocks_of last_release_fails = [("res1", JStr "res1", false, JUndefined)].
Proof. split; vm_compute; reflexivity. Qed.

(** ** The tag [__proto__] *)

(** A string acquired under [__proto__] is stored nowhere: the next
    acquire gets [{}], the mapping returned has the other key only, and
    the release of the step is handed [Object.prototype]. *)
Example proto_tag_string_run :
  trace_of proto_tag_string !! 2 = Some (AcquireCall 1 empty_results) ∧
  outcome_of proto_tag_string
    = Returned (mkResults {[ "next" := JNum 1 ]} ObjectPrototype) ∧
  mocks_of proto_tag_string
    = [("proto", JObjectPrototype, false, JUndefined)].
Proof. split_and!; vm_compute; reflexivity. Qed.

(** An object acquired under [__proto__] becomes the prototype of the
    mapping, which gets no key; its release is handed that object. *)
Example proto_tag_object_run :
  outcome_of proto_tag_object
    = Returned (mkResults ∅ (UserPrototype (JError "resource"))) ∧
  mocks_of proto_tag_object
    = [("proto", JError "resource", false, JUndefined)].
Proof. split; vm_compute; reflexivity. Qed.

(** After [null] was acquired under [__proto__] the mapping inherits
    nothing, and a second step with that tag makes an own property. *)
Example proto_tag_null_run :
  outcome_of proto_tag_null
    = Returned (mkResults {[ "__proto__" := JNum 2 ]} NullPrototype) ∧
  mocks_of proto_tag_null
    = [("second", JNum 2, false, JUndefined);
       ("first", JNum 2, false, JUndefined)].
Proof. split; vm_compute; reflexivity. Qed.

(** ** The claims on the pipelines of the test suite *)

Lemma not_proto_db_then_file : proto_key ∉ (tag <$> db_then_file).
Proof.
  intros [H|[H|H%elem_of_nil]%elem_of_cons]%elem_of_cons;
    [discriminate H..|done].
Qed.



Lemma acquire_call_invariant_witness :
  trace_of db_then_file !! 2
    = Some (AcquireCall 1
              (mkResults {[ "db" := JStr "fakeDbClient" ]} ObjectPrototype)) ∧
  (∀ j, j < 1 →
     is_Some (acquired_resource (take 2 (trace_of db_then_file)) j)) ∧
  acquire_failure (take 2 (trace_of db_then_file)) = None ∧
  release_calls (take 2 (trace_of db_then_file)) = [] ∧
  (proto_key ∉ (tag <$> take 1 db_then_file) →
   prototype_of
     (mkResults {[ "db" := JStr "fakeDbClient" ]} ObjectPrototype)
     = ObjectPrototype ∧
   last_entry_per_tag db_then_file (trace_of db_then_file) 1
     (own (mkResults {[ "db" := JStr "fakeDbClient" ]} ObjectPrototype)) ∧
   (NoDup (tag <$> take 1 db_then_file) →
    one_entry_per_step db_then_file (trace_of db_then_file) 1
      (own (mkResults {[ "db" := JStr "fakeDbClient" ]} ObjectPrototype)))).
Proof.
  split; [vm_compute; reflexivity|].
  apply (acquire_call_invariant node db_then_file []
           (mocks_of db_then_file) (trace_of db_then_file)
           (outcome_of db_then_file));
    vm_compute; reflexivity.
Defined.

(** C2 as the specification words it fails in two ways.  When a tag is
    used twice, the acquire of the third step gets a mapping with one
    entry, which is not the resource of the first step.  When the first
    step is tagged [__proto__], the acquire of the second step gets the
    empty mapping. *)
Lemma acquire_call_same_tag_twice :
  (trace_of same_tag_twice !! 4
     = Some (AcquireCall 2 (mkResults {[ "a" := JNum 2 ]} ObjectPrototype)) ∧
   acquired_resource (trace_of same_tag_twice) 0 = Some (JNum 1) ∧
   ¬ one_entry_per_step same_tag_twice (trace_of same_tag_twice) 2
       {[ "a" := JNum 2 ]}) ∧
  (trace_of proto_tag_string !! 2 = Some (AcquireCall 1 empty_results) ∧
   acquired_resource (trace_of proto_tag_string) 0 = Some (JStr "bar") ∧
   ¬ one_entry_per_step proto_tag_string (trace_of proto_tag_string) 1
       (own empty_results)).
Proof.
  split.
  - split_and!; [vm_compute; reflexivity..|].
    intros [_ Hstep].
    destruct (Hstep 0
                (mkStep "a" (returns (JNum 1)) (Some (records "first a"))))
      as (v & Hv & Hlook); [lia|reflexivity|].
    vm_compute in Hv. vm_compute in Hlook. congruence.
  - split_and!; [vm_compute; reflexivity..|].
    intros [Hsize _]. vm_compute in Hsize. discriminate.
Qed.

Lemma release_order_witness :
  trace_of db_then_file !! 4
    = Some (ReleaseCall 1 (JStr "fakeFileHandle") (mkExit false None)) ∧
  trace_of db_then_file !! 6
    = Some (ReleaseCall 0 (JStr "fakeDbClient") (mkExit false None)) ∧
  (4 < 6 ↔ 0 < 1) ∧
  (0 < 1 →
   ∃ r, trace_of db_then_file !! 5 = Some (ReleaseDone 1 r) ∧ 5 < 6).
Proof.
  split_and!; [vm_compute; reflexivity..| |];
    apply (release_order node db_then_file []
             (mocks_of db_then_file) (trace_of db_then_file)
             (outcome_of db_then_file) 4 6 0 1
             (JStr "fakeDbClient") (JStr "fakeFileHandle")
             (mkExit false None) (mkExit false None));
    vm_compute; reflexivity.
Defined.

Lemma rollback_rethrows_witness :
  acquire_failure (trace_of second_acquire_fails)
    = Some (JError "Acquisition of failing resource failed") ∧
  release_errors (trace_of second_acquire_fails) = [] ∧
  outcome_of second_acquire_fails
    = Threw (Raw (JError "Acquisition of failing resource failed")).
Proof.
  split_and!; [vm_compute; reflexivity..|].
  apply (rollback_rethrows node second_acquire_fails []
           (mocks_of second_acquire_fails) (trace_of second_acquire_fails));
    vm_compute; reflexivity.
Defined.

Lemma rollback_aggregates_witness :
  acquire_failure (trace_of rollback_release_fails)
    = Some (JError "acquire d") ∧
  release_errors (trace_of rollback_release_fails) ≠ [] ∧
  outcome_of rollback_release_fails
    = Threw (AggregateError
               (JError "acquire d"
                  :: (release_failures (trace_of rollback_release_fails)).*2)
               rollback_message) ∧
  decreasing (release_failures (trace_of rollback_release_fails)).*1.
Proof.
  split_and!; [vm_compute; reflexivity|vm_compute; discriminate| |];
    apply (rollback_aggregates node rollback_release_fails []
             (mocks_of rollback_release_fails)
             (trace_of rollback_release_fails)
             (outcome_of rollback_release_fails) (JError "acquire d"));
    vm_compute; (reflexivity || discriminate).
Defined.

Lemma success_release_aggregates_witness :
  acquire_failure (trace_of last_release_fails) = None ∧
  release_errors (trace_of last_release_fails) ≠ [] ∧
  outcome_of last_release_fails
    = Threw (AggregateError
               (release_failures (trace_of last_release_fails)).*2
               success_message) ∧
  decreasing (release_failures (trace_of last_release_fails)).*1.
Proof.
  split_and!; [vm_compute; reflexivity|vm_compute; discriminate| |];
    apply (success_release_aggregates node last_release_fails []
             (mocks_of last_release_fails) (trace_of last_release_fails)
             (outcome_of last_release_fails));
    vm_compute; (reflexivity || discriminate).
Defined.



Lemma quiet_two_pipelines :
  Forall quiet (two_quiet_pipelines !!! 0).
Proof. repeat constructor. Qed.



Lemma not_proto_a : "a" ≠ proto_key.
Proof. discriminate. Qed.



(** * Further properties of the runner and of the builder *)

Section MoreFacts.
Context {value W : Type}.
Variable J : js value.

#[local] Abbreviation step := (AcquireRelease value W).
#[local] Abbreviation trace := (list (event value)).

(** ** The acquire phase, event by event *)

Lemma acquire_trace_call_pos i results tags (vs : list value) f q j prev :
  acquire_trace J i results tags vs f !! q = Some (AcquireCall j prev) →
  ∃ n, q = 2 * n ∧ j = i + n ∧ n ≤ length vs ∧
       ∃ r, acquire_trace J i results tags vs f !! S q = Some (AcquireDone j r).
Proof.
  revert i results vs q.
  induction tags as [|k tags IH]; intros i results vs q; simpl.
  - destruct f as [e|]; [|done].
    destruct q as [|[|q]]; [|done..].
    intros [= <- <-]. exists 0. split_and!; [lia..|by eexists].
  - destruct vs as [|v vs].
    + destruct f as [e|]; [|done].
      destruct q as [|[|q]]; [|done..].
      intros [= <- <-]. exists 0. split_and!; [lia..|by eexists].
    + destruct q as [|[|q]]; [|done|].
      * intros [= <- <-]. exists 0. simpl. split_and!; [lia..|by eexists].
      * simpl. intros Hq.
        apply IH in Hq as (n & -> & -> & Hn & r & Hr).
        exists (S n). simpl. split_and!; [lia..|].
        exists r. by replace (n + S (n + 0)) with (S (2 * n)) by lia.
Qed.

Lemma acquire_trace_rejected i results tags (vs : list value) f p k e :
  length vs ≤ length tags →
  acquire_trace J i results tags vs f !! p = Some (AcquireDone k (Rejected e)) →
  f = Some e ∧ k = i + length vs ∧ p = 2 * length vs + 1.
Proof.
  revert i results vs p.
  induction tags as [|t tags IH]; intros i results vs p Hlen; simpl.
  - destruct vs; [|simpl in Hlen; lia].
    destruct f as [e'|]; [|done].
    destruct p as [|[|p]]; [done| |done].
    intros [= <- <-]. simpl. split_and!; [done|lia..].
  - destruct vs as [|v vs].
    + destruct f as [e'|]; [|done].
      destruct p as [|[|p]]; [done| |done].
      intros [= <- <-]. simpl. split_and!; [done|lia..].
    + simpl in Hlen. destruct p as [|[|p]]; [done..|].
      simpl. intros Hp. apply IH in Hp as (-> & -> & ->); [|lia].
      simpl. split_and!; [done|lia..].
Qed.

Lemma acquire_trace_count i results tags (vs : list value) f (evs : trace) :
  length vs ≤ length tags →
  acquired_count (acquire_trace J i results tags vs f ++ evs)
    = length vs + acquired_count evs.
Proof.
  revert i results vs.
  induction tags as [|t tags IH]; intros i results vs Hlen; simpl.
  - destruct vs; [|simpl in Hlen; lia]. by destruct f.
  - destruct vs as [|v vs]; [by destruct f|].
    simpl in Hlen. unfold acquired_count in *. simpl.
    f_equal. apply IH. lia.
Qed.

Lemma release_trace_count n (evs : trace) :
  release_trace n evs → acquired_count evs = 0.
Proof.
  induction 1 as [|n i resource exit r evs Hi Hevs IH]; [done|]. apply IH.
Qed.

Lemma release_trace_no_done n (evs : trace) p i r :
  release_trace n evs → evs !! p ≠ Some (AcquireDone i r).
Proof.
  intros Hevs. revert p.
  induction Hevs as [|n k resource exit r' evs Hk Hevs IH]; intros p.
  - by rewrite lookup_nil.
  - destruct p as [|[|p]]; simpl; [done..|]. apply IH.
Qed.

(** ** The release loop, call by call *)

Lemma filter_ext_in {A} (P Q : A → Prop) `{!∀ x, Decision (P x)}
    `{!∀ x, Decision (Q x)} (l : list A) :
  (∀ x, x ∈ l → P x ↔ Q x) → filter P l = filter Q l.
Proof.
  induction l as [|x l IH]; intros Hl; [done|].
  rewrite !filter_cons.
  rewrite IH by (intros y Hy; apply Hl; by right).
  destruct (decide (P x)) as [HP|HP], (decide (Q x)) as [HQ|HQ];
    try done; exfalso; apply (Hl x) in HP || apply (Hl x) in HQ;
    try done; by left.
Qed.

Lemma has_release_app_l (l1 l2 : list step) i :
  i < length l1 → has_release (l1 ++ l2) i = has_release l1 i.
Proof. intros Hi. unfold has_release. by rewrite lookup_app_l. Qed.

Lemma has_release_take (tasks : list step) n i :
  i < n → has_release (take n tasks) i = has_release tasks i.
Proof. intros Hi. unfold has_release. by rewrite lookup_take_lt. Qed.

Lemma release_loop_indices results exit (acquired : list step) (w w' : W)
    evs errs :
  release_loop J results exit acquired w = (w', evs, errs) →
  released_indices evs
    = filter (λ i, has_release (reverse acquired) i)
        (reverse (seq 0 (length acquired))).
Proof.
  revert w w' evs errs.
  induction acquired as [|task below IH]; intros w w' evs errs.
  - by intros [= <- <- <-].
  - change (length (task :: below)) with (S (length below)).
    rewrite seq_S, reverse_snoc, reverse_cons. simpl.
    assert (filter (λ i, has_release (reverse below ++ [task]) i)
              (reverse (seq 0 (length below)))
            = filter (λ i, has_release (reverse below) i)
                (reverse (seq 0 (length below)))) as Hrest.
    { apply filter_ext_in. intros i Hi.
      apply elem_of_reverse, elem_of_seq in Hi.
      rewrite has_release_app_l; [done|]. rewrite length_reverse. lia. }
    assert (has_release (reverse below ++ [task]) (length below)
            = match release task with Some _ => true | None => false end)
      as Hhead.
    { unfold has_release.
      rewrite <-(length_reverse below), list_lookup_middle by done. done. }
    destruct (release task) as [rel|].
    + destruct (rel _ exit w) as [w1 r].
      destruct (release_loop _ _ _ below w1) as [[w2 evs'] errs'] eqn:Hloop.
      intros [= <- <- <-].
      rewrite filter_cons_True by (apply Is_true_true_2, Hhead).
      rewrite Hrest. unfold released_indices, release_calls. simpl.
      f_equal. by eapply IH.
    + intros Hloop.
      rewrite filter_cons_False
        by (intros HT%Is_true_true_1; congruence).
      rewrite Hrest. by eapply IH.
Qed.

(** ** Further properties of a run *)



(** X3.  A failed acquire ends the acquire phase: every acquire call
    comes before it and is for an earlier step or the failing one, the
    steps acquired are exactly those before the failing step, and only
    those are released (the failing step and later ones never are). *)
Theorem acquire_failure_stops (tasks : list step) (w w' : W) tr out p k e :
  runTransaction J tasks w = (w', tr, out) →
  tr !! p = Some (AcquireDone k (Rejected e)) →
  (∀ q i prev, tr !! q = Some (AcquireCall i prev) → q < p ∧ i ≤ k) ∧
  (∀ i, is_Some (acquired_resource tr i) ↔ i < k) ∧
  (∀ c, c ∈ release_calls tr → c.1.1 < k).
Proof.
  intros (w1 & vs & f & evs2 & errs & -> & _ & _ & Hle & _ & Htr & _ & Hres
          & Hcalls & _)%run_shape Hp.
  apply lookup_app_Some in Hp as [Hp|[_ Hp]];
    [|by apply (release_trace_no_done _ _ _ _ _ Htr) in Hp].
  apply acquire_trace_rejected in Hp as (-> & Hk & ->);
    [|rewrite length_fmap; lia].
  simpl in Hk. subst k. split_and!.
  - intros q i prev Hq.
    apply (run_acquire_position _ _ _ _ _ _ Htr) in Hq as [_ Hq].
    apply acquire_trace_call_pos in Hq as (n & -> & -> & Hn & _). lia.
  - intros i. rewrite Hres. split.
    + apply lookup_lt_is_Some_1.
    + apply lookup_lt_is_Some_2.
  - intros c Hc. rewrite Hcalls in Hc.
    by apply (release_trace_calls_lt _ _ _ Htr) in Hc.
Qed.


(** X5.  Calls are made one at a time: the event after a call of an
    acquire or of a release function is the settling of that call. *)
Theorem call_then_settle (tasks : list step) (w w' : W) tr out p :
  runTransaction J tasks w = (w', tr, out) →
  (∀ i prev, tr !! p = Some (AcquireCall i prev) →
     ∃ r, tr !! S p = Some (AcquireDone i r)) ∧
  (∀ i resource exit, tr !! p = Some (ReleaseCall i resource exit) →
     ∃ r, tr !! S p = Some (ReleaseDone i r)).
Proof.
  intros (w1 & vs & f & evs2 & errs & -> & _ & _ & _ & _ & Htr
          & _)%run_shape.
  split.
  - intros i prev Hp.
    apply (run_acquire_position _ _ _ _ _ _ Htr) in Hp as [_ Hp].
    apply acquire_trace_call_pos in Hp as (_ & _ & _ & _ & r & Hr).
    exists r. apply lookup_app_l_Some, Hr.
  - intros i resource exit (p' & -> & Hp)%run_release_position.
    destruct (release_trace_done _ _ _ _ _ _ Htr Hp) as [r Hr].
    exists r. rewrite <-Nat.add_succ_r.
    by rewrite lookup_app_r, Nat.add_comm, Nat.add_sub by lia.
Qed.

Lemma insert_all_lookup_key (kvs : list (string * value)) k :
  k ∈ kvs.*1 →
  ∃ j v, kvs !! j = Some (k, v) ∧
    (∀ j' k' v', j < j' → kvs !! j' = Some (k', v') → k' ≠ k) ∧
    insert_all ∅ kvs !! k = Some v.
Proof.
  induction kvs as [|[k0 v0] kvs IH] using rev_ind.
  - by intros ?%elem_of_nil.
  - rewrite fmap_app, elem_of_app, insert_all_snoc. simpl. intros Hk.
    destruct (decide (k0 = k)) as [->|Hne].
    + exists (length kvs), v0. split_and!.
      * by apply list_lookup_middle.
      * intros j' k' v' Hj' Hlook. apply lookup_lt_Some in Hlook.
        rewrite length_app in Hlook. simpl in Hlook. lia.
      * by rewrite lookup_insert_eq.
    + destruct Hk as [Hk|Hk%list_elem_of_singleton]; [|done].
      destruct (IH Hk) as (j & v & Hj & Hlast & Hlook).
      exists j, v. split_and!.
      * rewrite lookup_app_l; [done|]. by eapply lookup_lt_Some.
      * intros j' k' v' Hjj' Hj'.
        apply lookup_app_Some in Hj' as [Hj'|[_ Hj']].
        -- by eapply Hlast.
        -- apply list_lookup_singleton_Some in Hj' as [_ [= <- <-]].
           done.
      * by rewrite lookup_insert_ne.
Qed.

(** A tag other than [__proto__] that was assigned is an own key, and
    reading it gives the value stored: the runner, which reads only the
    tags of acquired steps, never reads an inherited property under
    such a tag. *)
Lemma read_assigned (kvs : list (string * value)) k :
  k ≠ proto_key → k ∈ kvs.*1 →
  ∃ v, own (assign_all J empty_results kvs) !! k = Some v ∧
       read J (assign_all J empty_results kvs) k = v.
Proof.
  intros Hk Hin.
  destruct (insert_all_lookup_key kvs k Hin) as (j & v & _ & _ & Hlook).
  exists v. rewrite read_own, own_assign_all_other by done. simpl.
  by rewrite Hlook.
Qed.

Lemma forward_call_bound (rest : list step) i results (w : W)
    w1 evs res vs f q j prev :
  forward J rest i results w = (w1, evs, res, vs, f) →
  evs !! q = Some (AcquireCall j prev) →
  j < i + length rest.
Proof.
  revert i results w w1 evs res vs f q.
  induction rest as [|task rest IH]; intros i results w w1 evs res vs f q;
    simpl.
  - intros [= <- <- <- <- <-]. by rewrite lookup_nil.
  - destruct (acquire task results w) as [w' [v|e]].
    + destruct (forward J rest _ _ _) as [[[[w2 evs'] res'] vs'] f'] eqn:Hfw.
      intros [= <- <- <- <- <-].
      destruct q as [|[|q]]; simpl; [intros [= <- <-]; lia|done|].
      intros Hq. eapply IH in Hq; [|done]. lia.
    + intros [= <- <- <- <- <-].
      destruct q as [|[|q]]; simpl; [intros [= <- <-]; lia|done..].
Qed.

Lemma run_acquire_call_bound (tasks : list step) (w w' : W) tr out
    q i prev :
  runTransaction J tasks w = (w', tr, out) →
  tr !! q = Some (AcquireCall i prev) →
  i < length tasks.
Proof.
  unfold runTransaction. rewrite acquire_loop_forward.
  destruct (forward J tasks 0 empty_results w)
    as [[[[w1 evs1] res] vs] f] eqn:Hfw.
  destruct (release_loop _ _ _ _ _) as [[w2 evs2] errs] eqn:Hloop.
  intros [= <- <- <-] Hq.
  apply release_loop_trace in Hloop as [Htr _].
  apply (run_acquire_position _ _ _ _ _ _ Htr) in Hq as [_ Hq].
  by apply (forward_call_bound _ _ _ _ _ _ _ _ _ _ _ _ Hfw) in Hq.
Qed.


(** X11.  The acquire functions are called in the order of the steps,
    each at most once, and only for declared steps: of two acquire
    calls the earlier one is for the smaller index, and every index
    called is below the number of steps. *)
Theorem acquire_calls_in_order (tasks : list step) (w w' : W) tr out
    q q' i i' prev prev' :
  runTransaction J tasks w = (w', tr, out) →
  tr !! q = Some (AcquireCall i prev) →
  tr !! q' = Some (AcquireCall i' prev') →
  (q < q' ↔ i < i') ∧ (q = q' ↔ i = i') ∧ i < length tasks.
Proof.
  intros Hrun Hq Hq'.
  pose proof (run_acquire_call_bound _ _ _ _ _ _ _ _ Hrun Hq) as Hbound.
  apply run_shape in Hrun
    as (w1 & vs & f & evs2 & errs & -> & _ & _ & _ & _ & Htr & _).
  apply (run_acquire_position _ _ _ _ _ _ Htr) in Hq as [_ Hq].
  apply (run_acquire_position _ _ _ _ _ _ Htr) in Hq' as [_ Hq'].
  apply acquire_trace_call_pos in Hq as (n & -> & -> & _).
  apply acquire_trace_call_pos in Hq' as (n' & -> & -> & _).
  split_and!; [lia..|done].
Qed.

(** ** Further properties of the builder *)

(** The store after a chain of [add] calls, in closed form. *)
Lemma add_all_alter (σ : store value W) (b : Builder) (steps : list step) :
  add_all b steps σ
  = (alter (λ tasks, tasks ++ steps) (builder_tasks b) σ, b).
Proof.
  unfold store in *. revert σ.
  induction steps as [|s steps IH]; intros σ.
  - simpl. rewrite list_alter_id; [done|]. intros x. apply app_nil_r.
  - cbn [add_all add]. destruct b as [r]. unfold createBuilder.
    rewrite IH. simpl. unfold store. f_equal. rewrite list_alter_alter_eq.
    apply list_alter_ext; [|done]. intros x _. simpl.
    rewrite <-app_assoc. by destruct s.
Qed.

(** X6.  A chain of [add] calls on an allocated builder appends the
    declared steps, in order, to the array of that builder; the builder
    returned holds the same array, and the arrays of other builders are
    left as they were. *)
Theorem add_all_declares (σ : store value W) (b : Builder)
    (steps : list step) :
  builder_tasks b < length σ →
  builder_tasks (add_all b steps σ).2 = builder_tasks b ∧
  (add_all b steps σ).1 !!! builder_tasks b = σ !!! builder_tasks b ++ steps ∧
  length (add_all b steps σ).1 = length σ ∧
  ∀ r, r ≠ builder_tasks b → (add_all b steps σ).1 !! r = σ !! r.
Proof.
  intros Hb. rewrite add_all_alter. unfold store in *. simpl. split_and!.
  - done.
  - by rewrite list_lookup_total_alter_eq.
  - apply length_alter.
  - intros r Hr. by rewrite list_lookup_alter_ne.
Qed.

Lemma fresh_builder_runs (σ : store value W) (steps : list step) (w : W) :
  invoke J (build (add_all (createBuilder (length σ)) steps
                             (σ ++ [[]])).2)
    (add_all (createBuilder (length σ)) steps (σ ++ [[]])).1 w
  = runTransaction J steps w.
Proof.
  rewrite add_all_alter. unfold invoke, build, Transaction, store in *.
  simpl. rewrite list_lookup_total_alter_eq
    by (rewrite length_app; simpl; lia).
  by rewrite list_lookup_total_middle.
Qed.

(** X7.  A runner built after [createTransaction] (or [createBracket],
    or [createScope]) and a chain of [add] calls runs the protocol on
    exactly the steps declared, in the order of the calls. *)
Theorem fresh_pipeline_runs (σ : store value W) (steps : list step) (w : W) :
  (let '(σ1, b0) := createTransaction σ in
   let '(σ2, b) := add_all b0 steps σ1 in
   invoke J (build b) σ2 w = runTransaction J steps w) ∧
  (let '(σ1, b0) := createBracket σ in
   let '(σ2, b) := add_all b0 steps σ1 in
   invoke J (build b) σ2 w = runTransaction J steps w) ∧
  (let '(σ1, b0) := createScope σ in
   let '(σ2, b) := add_all b0 steps σ1 in
   invoke J (build b) σ2 w = runTransaction J steps w).
Proof.
  unfold createTransaction, createBracket, createScope.
  pose proof (fresh_builder_runs σ steps w) as Hrun.
  destruct (add_all _ steps _) as [σ2 b]. done.
Qed.

(** X12.  A runner built from a builder to which nothing was added
    resolves with the empty mapping: it calls nothing and leaves the
    world as it found it. *)
Theorem empty_pipeline (σ : store value W) (w : W) :
  let '(σ1, b) := createTransaction σ in
  invoke J (build b) σ1 w = (w, [], Returned empty_results).
Proof.
  pose proof (fresh_builder_runs σ [] w) as Hrun. simpl in *.
  by rewrite Hrun.
Qed.

(** X8.  [add] pushes onto the array that the builder it is called on,
    the builders it returns and the runners built from any of them
    share: after [b.add(..)] and a second [b.add(..)] on the same [b],
    both builders returned, and a runner of [b], hold the steps of [b]
    followed by both new steps. *)
Theorem builders_share_array (σ : store value W) (b : Builder)
    k1 acq1 rel1 k2 acq2 rel2 (w : W) :
  builder_tasks b < length σ →
  let '(σ1, b1) := add b k1 acq1 rel1 σ in
  let '(σ2, b2) := add b k2 acq2 rel2 σ1 in
  let shared :=
    σ !!! builder_tasks b ++ [mkStep k1 acq1 rel1; mkStep k2 acq2 rel2] in
  σ2 !!! builder_tasks b1 = shared ∧
  σ2 !!! builder_tasks b2 = shared ∧
  invoke J (build b) σ2 w = runTransaction J shared w.
Proof.
  intros Hb.
  pose proof (add_declares σ b k1 acq1 rel1 Hb) as H1.
  pose proof (add_declares (add b k1 acq1 rel1 σ).1 b k2 acq2 rel2) as H2.
  simpl in *. unfold invoke, build, Transaction. simpl.
  rewrite H2, H1, <-app_assoc.
  - by split_and!.
  - unfold store in *. by rewrite length_alter.
Qed.

(** X9.  A builder made by [createTransaction] has an array of its own:
    the steps added to it do not reach the runners of the builders
    that were there before. *)
Theorem new_builder_isolated (σ : store value W) (b : Builder)
    (steps : list step) (w : W) :
  builder_tasks b < length σ →
  let '(σ1, b0) := createTransaction σ in
  let '(σ2, b') := add_all b0 steps σ1 in
  builder_tasks b' ≠ builder_tasks b ∧
  invoke J (build b) σ2 w = invoke J (build b) σ w.
Proof.
  intros Hb. unfold createTransaction. rewrite add_all_alter. simpl.
  split; [lia|].
  unfold invoke, build, Transaction, store in *. simpl. f_equal.
  rewrite list_lookup_total_alter_ne by lia.
  by rewrite !list_lookup_total_alt, lookup_app_l.
Qed.

End MoreFacts.

(** ** The further properties on the pipelines of the test suite *)

Example released_steps_same_tag_twice :
  released_indices (trace_of same_tag_twice) = [1; 0] ∧
  released_indices (trace_of rollback_release_fails) = [2; 1; 0].
Proof. split; vm_compute; reflexivity. Qed.



Lemma acquire_failure_stops_witness :
  trace_of rollback_release_fails !! 7
    = Some (AcquireDone 3 (Rejected (JError "acquire d"))) ∧
  (∀ q i prev,
     trace_of rollback_release_fails !! q = Some (AcquireCall i prev) →
     q < 7 ∧ i ≤ 3) ∧
  (∀ i, is_Some (acquired_resource (trace_of rollback_release_fails) i)
        ↔ i < 3) ∧
  (∀ c, c ∈ release_calls (trace_of rollback_release_fails) → c.1.1 < 3).
Proof.
  split; [vm_compute; reflexivity|].
  apply (acquire_failure_stops node rollback_release_fails []
           (mocks_of rollback_release_fails)
           (trace_of rollback_release_fails)
           (outcome_of rollback_release_fails) 7 3 (JError "acquire d"));
    vm_compute; reflexivity.
Defined.


Lemma call_then_settle_witness :
  (∀ i prev, trace_of db_then_file !! 2 = Some (AcquireCall i prev) →
     ∃ r, trace_of db_then_file !! 3 = Some (AcquireDone i r)) ∧
  (∀ i resource exit,
     trace_of db_then_file !! 2 = Some (ReleaseCall i resource exit) →
     ∃ r, trace_of db_then_file !! 3 = Some (ReleaseDone i r)).
Proof.
  apply (call_then_settle node db_then_file []
           (mocks_of db_then_file) (trace_of db_then_file)
           (outcome_of db_then_file) 2).
  vm_compute; reflexivity.
Defined.

Lemma add_all_declares_witness :
  builder_tasks (createBuilder 0) < length ([[]] : store jsval mock_calls) ∧
  builder_tasks (add_all (createBuilder 0) db_then_file [[]]).2 = 0 ∧
  (add_all (createBuilder 0) db_then_file [[]]).1 !!! 0 = [] ++ db_then_file ∧
  length (add_all (createBuilder 0) db_then_file [[]]).1 = 1 ∧
  ∀ r, r ≠ 0 →
    (add_all (createBuilder 0) db_then_file [[]]).1 !! r
    = ([[]] : store jsval mock_calls) !! r.
Proof.
  split; [simpl; lia|].
  apply (add_all_declares ([[]] : store jsval mock_calls) (createBuilder 0)
           db_then_file).
  simpl; lia.
Defined.

Lemma builders_share_array_witness :
  builder_tasks (createBuilder 0) < length ([[]] : store jsval mock_calls) ∧
  let '(σ1, b1) :=
    add (createBuilder 0) "db" (returns (JStr "fakeDbClient"))
      (Some (records "db")) ([[]] : store jsval mock_calls) in
  let '(σ2, b2) :=
    add (createBuilder 0) "file" (returns (JStr "fakeFileHandle")) None σ1 in
  let shared :=
    ([[]] : store jsval mock_calls) !!! builder_tasks (createBuilder 0)
    ++ [mkStep "db" (returns (JStr "fakeDbClient")) (Some (records "db"));
        mkStep "file" (returns (JStr "fakeFileHandle")) None] in
  σ2 !!! builder_tasks b1 = shared ∧
  σ2 !!! builder_tasks b2 = shared ∧
  invoke node (build (createBuilder 0)) σ2 []
    = runTransaction node shared [].
Proof.
  split; [simpl; lia|].
  apply (builders_share_array node ([[]] : store jsval mock_calls)
           (createBuilder 0)).
  simpl; lia.
Defined.

Lemma new_builder_isolated_witness :
  builder_tasks two_builders.1.2 < length two_builders.1.1 ∧
  let '(σ1, b0) := createTransaction two_builders.1.1 in
  let '(σ2, b') := add_all b0 db_then_file σ1 in
  builder_tasks b' ≠ builder_tasks two_builders.1.2 ∧
  invoke node (build two_builders.1.2) σ2 []
    = invoke node (build two_builders.1.2) two_builders.1.1 [].
Proof.
  split; [vm_compute; lia|].
  apply (new_builder_isolated node two_builders.1.1 two_builders.1.2
           db_then_file []).
  vm_compute; lia.
Defined.


Lemma acquire_calls_in_order_witness :
  trace_of db_then_file !! 0 = Some (AcquireCall 0 empty_results) ∧
  trace_of db_then_file !! 2
    = Some (AcquireCall 1
              (mkResults {[ "db" := JStr "fakeDbClient" ]} ObjectPrototype)) ∧
  (0 < 2 ↔ 0 < 1) ∧ (0 = 2 ↔ 0 = 1) ∧ 0 < length db_then_file.
Proof.
  split_and!; [vm_compute; reflexivity..| | |];
    apply (acquire_calls_in_order node db_then_file []
             (mocks_of db_then_file) (trace_of db_then_file)
             (outcome_of db_then_file) 0 2 0 1 empty_results
             (mkResults {[ "db" := JStr "fakeDbClient" ]} ObjectPrototype));
    vm_compute; reflexivity.
Defined.
